(** * Block summation utility (puzzle/2022/d01/main.cpp)

    A shallow embedding of [main] and of the library calls it makes
    ([getline], [string::empty], [stoi], [vector::push_back], [sort] with
    [greater], [vector::operator[]], [operator<<]), followed by the
    properties of the program.

    Conventions.
    - [int] is a 32-bit two's complement integer, carried as a [Z] in
      [INT_MIN .. INT_MAX].  [+=] on [int] is [int_add]: the sum, reduced
      into that range by [wrap].  The reduction is the identity as long as
      the sum fits an [int] ([int_add_exact], [block_sum_exact]); beyond,
      C++ leaves the addition undefined and the model takes the value that
      two's complement hardware gives.
    - The standard input is the [string] of the characters still unread.
    - An uncaught exception of [stoi] ends the run with a [fault] instead
      of an output.  In [main] a read of a vector beyond its size is marked
      by the fault [out_of_bounds]; the relation [exec] gives the runs of
      the program with the read unchecked, as [operator[]] is. *)

From Equations Require Import Equations.
From Stdlib Require Import ZArith List Ascii String Lia Bool Permutation Sorted.
From Stdlib Require Import DecimalString.
From Stdlib Require DecimalPos.
Import ListNotations.

Local Open Scope string_scope.
Local Open Scope list_scope.
Local Open Scope Z_scope.

(** ** Machine integers *)

Module Int.

Definition INT_MIN : Z := - 2 ^ 31.
Definition INT_MAX : Z := 2 ^ 31 - 1.

Definition in_range (z : Z) : Prop := INT_MIN <= z <= INT_MAX.

Definition in_rangeb (z : Z) : bool := (INT_MIN <=? z) && (z <=? INT_MAX).

(** Reduction of an integer into the range of [int]. *)
Definition wrap (z : Z) : Z := (z + 2 ^ 31) mod 2 ^ 32 - 2 ^ 31.

(** [a + b] on [int]. *)
Definition int_add (a b : Z) : Z := wrap (a + b).

End Int.

Import Int.

(** ** Faults and results *)

Inductive fault : Type :=
| invalid_argument          (* thrown by stoi: no conversion *)
| out_of_range              (* thrown by stoi: value does not fit an int *)
| out_of_bounds (i : nat).  (* operator[] at an index i >= size() *)

Inductive result (A : Type) : Type :=
| Ok (a : A)
| Fail (f : fault).

Arguments Ok {A} a.
Arguments Fail {A} f.

Definition bind {A B : Type} (m : result A) (k : A -> result B) : result B :=
  match m with
  | Ok a => k a
  | Fail f => Fail f
  end.

Notation "x <- m ;; k" := (bind m (fun x => k))
  (at level 61, m at next level, right associativity).

(** ** Characters and strings *)

Definition newline : ascii := Ascii.ascii_of_nat 10.

Definition is_newline (c : ascii) : bool := Ascii.eqb c newline.

(** [isspace] in the "C" locale: space, \t, \n, \v, \f, \r. *)
Definition isspace (c : ascii) : bool :=
  let n := nat_of_ascii c in
  (Nat.eqb n 32 || (Nat.leb 9 n && Nat.leb n 13))%bool.

(** The value of a decimal digit. *)
Definition digit_val (c : ascii) : option Z :=
  let n := nat_of_ascii c in
  if (Nat.leb 48 n && Nat.leb n 57)%bool then Some (Z.of_nat n - 48) else None.

(** [string::empty]. *)
Definition empty (s : string) : bool :=
  match s with
  | EmptyString => true
  | String _ _ => false
  end.

(** ** stoi *)

Fixpoint skip_space (s : string) : string :=
  match s with
  | String c s' => if isspace c then skip_space s' else s
  | EmptyString => s
  end.

(** The value of the longest prefix of decimal digits, continuing [acc]. *)
Fixpoint digits (acc : Z) (s : string) : Z :=
  match s with
  | String c s' =>
      match digit_val c with
      | Some d => digits (10 * acc + d) s'
      | None => acc
      end
  | EmptyString => acc
  end.

Definition starts_with_digit (s : string) : bool :=
  match s with
  | String c _ => match digit_val c with Some _ => true | None => false end
  | EmptyString => false
  end.

(** The optional sign: [true] for a minus sign. *)
Definition sign (s : string) : bool * string :=
  match s with
  | String "-" s' => (true, s')
  | String "+" s' => (false, s')
  | _ => (false, s)
  end.

(** [stoi(str)]: leading white space is skipped, then an optional sign and
    the longest run of decimal digits are read; what follows is ignored.
    Without a digit the call throws [invalid_argument], and a value outside
    of [int] throws [out_of_range]. *)
Definition stoi (str : string) : result Z :=
  let (neg, s) := sign (skip_space str) in
  if starts_with_digit s then
    let v := digits 0 s in
    let v := if neg then - v else v in
    if in_rangeb v then Ok v else Fail out_of_range
  else Fail invalid_argument.

(** ** getline *)

(** The characters up to the first newline, and what follows that newline. *)
Fixpoint split_line (s : string) : string * string :=
  match s with
  | EmptyString => (EmptyString, EmptyString)
  | String c s' =>
      if is_newline c then (EmptyString, s')
      else let (l, r) := split_line s' in (String c l, r)
  end.

(** [getline(cin, line)]: fails when no character is left; otherwise gives
    the line read (without its newline) and the rest of the stream. *)
Definition getline (cin : string) : option (string * string) :=
  match cin with
  | EmptyString => None
  | String _ _ => Some (split_line cin)
  end.

Lemma split_line_length (s : string) :
  (String.length (snd (split_line s)) <= String.length s)%nat.
Proof.
  induction s as [|c s IH]; simpl; [lia|].
  destruct (is_newline c); simpl; [lia|].
  destruct (split_line s); simpl in *; lia.
Qed.

Lemma getline_length (cin line rest : string) :
  getline cin = Some (line, rest) ->
  (String.length rest < String.length cin)%nat.
Proof.
  destruct cin as [|c s]; simpl; [discriminate|].
  intros H; injection H as H.
  pose proof (split_line_length s) as Hs.
  destruct (is_newline c).
  - injection H as _ <-. lia.
  - destruct (split_line s) as [l r]. injection H as _ <-. simpl in Hs. lia.
Qed.

(** ** The program *)

(** [vector::push_back]. *)
Definition push_back (v : list Z) (x : Z) : list Z := v ++ [x].

(** [v[i]]: defined for [i < v.size()] only. *)
Definition index (v : list Z) (i : nat) : result Z :=
  match nth_error v i with
  | Some x => Ok x
  | None => Fail (out_of_bounds i)
  end.

(** The variables of [main] that live across the reading loop. *)
Record locals : Type := mkLocals { count : Z; elfs : list Z }.

Definition init : locals := {| count := 0; elfs := [] |}.

(** The body of the [while] loop, for the line just read. *)
Definition loop_body (line : string) (st : locals) : result locals :=
  if empty line then
    Ok {| count := 0; elfs := push_back (elfs st) (count st) |}
  else
    v <- stoi line ;;
    Ok {| count := int_add (count st) v; elfs := elfs st |}.

Definition inspect {A : Type} (a : A) : {b : A | a = b} := exist _ a eq_refl.

(** [while (getline(cin, line)) { ... }]. *)
Equations? while_getline (cin : string) (st : locals) : result locals
  by wf (String.length cin) lt :=
  while_getline cin st with inspect (getline cin) => {
    | exist _ None _ := Ok st;
    | exist _ (Some (line, rest)) Hget with loop_body line st => {
        | Ok st' := while_getline rest st';
        | Fail f := Fail f } }.
Proof. eapply getline_length; eassumption. Qed.

(** [greater()]: the comparison [a > b]. *)
Definition greater (a b : Z) : bool := b <? a.

(** [sort(first, last, comp)]: the elements are put in an order in which no
    element is [comp]-before one that precedes it.  On integers that order
    is unique, so the sorting algorithm is immaterial ([sort_unique]). *)
Fixpoint insert (comp : Z -> Z -> bool) (x : Z) (l : list Z) : list Z :=
  match l with
  | [] => [x]
  | y :: l' => if comp x y then x :: y :: l' else y :: insert comp x l'
  end.

Definition sort (comp : Z -> Z -> bool) (l : list Z) : list Z :=
  fold_right (insert comp) [] l.

(** Modelled from the spec: the macro [iter] comes from the header
    <stdc++.h>, which is not among the sources.  [iter(i, a, b) body] runs
    [body] for [i = a, a + 1, ..., b - 1]: the spec has the program "sum the
    first three elements of the sorted sequence", at "indices 0, 1 and 2". *)
Fixpoint iter_from {S : Type} (n i : nat) (body : nat -> S -> result S) (s : S)
  : result S :=
  match n with
  | O => Ok s
  | Datatypes.S n' => s' <- body i s ;; iter_from n' (Datatypes.S i) body s'
  end.

Definition iter {S : Type} (a b : nat) (body : nat -> S -> result S) (s : S)
  : result S :=
  iter_from (b - a) a body s.

(** [cout << out]: the decimal numeral of an [int]. *)
Definition to_string (z : Z) : string := NilZero.string_of_int (Z.to_int z).

Definition endl : string := String newline EmptyString.

(** What follows the reading loop: sort, add up the top three, print. *)
Definition finish (st : locals) : result string :=
  let st := {| count := count st; elfs := sort greater (elfs st) |} in
  out <- iter 0 3 (fun i out => x <- index (elfs st) i ;; Ok (int_add out x)) 0 ;;
  Ok (to_string out ++ endl)%string.

(** [main]: the text written to the standard output, or the fault that
    ends the run before anything is written. *)
Definition main (cin : string) : result string :=
  st <- while_getline cin init ;;
  finish st.

(** The text on the standard output after the run. *)
Definition printed (r : result string) : option string :=
  match r with
  | Ok s => Some s
  | Fail _ => None
  end.

(** ** The input as lines, groups and block sums *)

(** The lines that successive calls of [getline] read from the stream. *)
Equations? lines (cin : string) : list string by wf (String.length cin) lt :=
  lines cin with inspect (getline cin) => {
    | exist _ None _ := [];
    | exist _ (Some (line, rest)) Hget := line :: lines rest }.
Proof. eapply getline_length; eassumption. Qed.

(** The reading loop over lines already split. *)
Fixpoint run_lines (ls : list string) (st : locals) : result locals :=
  match ls with
  | [] => Ok st
  | line :: ls' => st' <- loop_body line st ;; run_lines ls' st'
  end.

(** A configuration of the reading loop: the unread input and the locals. *)
Definition config : Type := (string * locals)%type.

(** One iteration of the loop, labelled with the line it reads. *)
Inductive step : string -> config -> config -> Prop :=
| step_line cin st line rest st' :
    getline cin = Some (line, rest) ->
    loop_body line st = Ok st' ->
    step line (cin, st) (rest, st').

(** Some iterations in a row, with the lines read on the way. *)
Inductive reads : list string -> config -> config -> Prop :=
| reads_nil c : reads [] c c
| reads_cons line ls c c' c'' :
    step line c c' -> reads ls c' c'' -> reads (line :: ls) c c''.






(** The number of blank lines among [ls]. *)
Definition blank_lines (ls : list string) : nat :=
  List.length (filter empty ls).

(** The lines of an input made of the groups [gs], each followed by one
    blank line, and of the lines [t] after the last blank line. *)
Definition flatten (gs : list (list string)) (t : list string) : list string :=
  List.concat (map (fun g => g ++ [EmptyString]) gs) ++ t.

(** [line] is read by [stoi] as the integer [v]. *)
Definition parses (line : string) (v : Z) : Prop := stoi line = Ok v.

(** The sum of integers, and the same as a value of type [int]. *)
Definition sum (vs : list Z) : Z := fold_right Z.add 0 vs.

Definition block_sum (vs : list Z) : Z := wrap (sum vs).

(** [a], [b] and [c] are three largest elements of [l]: they occur in [l]
    (at three positions) and no other element exceeds any of them. *)
Definition three_largest (l : list Z) (a b c : Z) : Prop :=
  exists rest, Permutation l (a :: b :: c :: rest) /\
               Forall (fun x => x <= a /\ x <= b /\ x <= c) rest.

(** A list in descending order. *)
Definition descending (l : list Z) : Prop := StronglySorted Z.ge l.

(** The accumulator after the lines of one group, starting from [acc]. *)
Fixpoint sum_lines (acc : Z) (g : list string) : result Z :=
  match g with
  | [] => Ok acc
  | line :: g' => v <- stoi line ;; sum_lines (int_add acc v) g'
  end.

(** The block sums of groups, each followed by a blank line. *)
Fixpoint sums_of (gs : list (list string)) : result (list Z) :=
  match gs with
  | [] => Ok []
  | g :: gs' => c <- sum_lines 0 g ;; cs <- sums_of gs' ;; Ok (c :: cs)
  end.

(** Two runs of [sums_of] on the same groups in another order: both throw,
    or both give the same block sums in another order. *)
Definition same_sums (r r' : result (list Z)) : Prop :=
  match r, r' with
  | Ok cs, Ok cs' => Permutation cs cs'
  | Fail _, Fail _ => True
  | _, _ => False
  end.

(** [k] blank lines, then [rest]. *)
Fixpoint blank_run (k : nat) (rest : string) : string :=
  match k with
  | O => rest
  | S k' => String newline (blank_run k' rest)
  end.

(** The groups of a list of lines: the runs of non-blank lines that a blank
    line ends, and the lines after the last blank line. *)
Fixpoint split_groups (ls : list string) : list (list string) * list string :=
  match ls with
  | [] => ([], [])
  | line :: ls' =>
      let (gs, t) := split_groups ls' in
      if empty line then ([] :: gs, t)
      else match gs with
           | [] => ([], line :: t)
           | g :: gs' => ((line :: g) :: gs', t)
           end
  end.

(** The text of an input whose lines are [ls], each ended by a newline. *)
Fixpoint unlines (ls : list string) : string :=
  match ls with
  | [] => EmptyString
  | line :: ls' => (line ++ String newline (unlines ls'))%string
  end.

(** [s] holds a newline. *)
Fixpoint has_newline (s : string) : bool :=
  match s with
  | EmptyString => false
  | String c s' => (is_newline c || has_newline s')%bool
  end.

(** The last character of [s] is a newline. *)
Fixpoint ends_with_newline (s : string) : bool :=
  match s with
  | EmptyString => false
  | String c EmptyString => is_newline c
  | String _ s' => ends_with_newline s'
  end.

(** The loop body does not throw on [line]: the line is empty or [stoi]
    reads it. *)
Definition readable (line : string) : bool :=
  (empty line || match stoi line with Ok _ => true | Fail _ => false end)%bool.

(** [s] is made of white space only. *)
Fixpoint all_space (s : string) : bool :=
  match s with
  | EmptyString => true
  | String c s' => (isspace c && all_space s')%bool
  end.

(** Two results agree: both are faults, or both are the same value. *)
Definition agree {A : Type} (r r' : result A) : Prop :=
  match r, r' with
  | Ok a, Ok b => a = b
  | Fail _, Fail _ => True
  | _, _ => False
  end.

(** ** Inputs used as examples *)

Definition example_input : string := "3
4

5

10
20
30
".

Definition example_terminated : string := "3
4

5

10
20
30

".

Definition example_reordered : string := "10
20
30

3
4

5

".

Definition trailing_last : string := "1

2

3

100
".

Definition trailing_first : string := "100

1

2

3
".

(** Carriage return, as a text with two-character line ends leaves it at
    the end of each line. *)
Definition cr : ascii := Ascii.ascii_of_nat 13.

(** The lines 1, blank, 2 with two-character line ends. *)
Definition crlf_input : string :=
  String "1" (String cr (String newline
    (String cr (String newline
      (String "2" (String cr (String newline EmptyString))))))).

(** The groups 1, 2, 3, 100 with no newline after the last line. *)
Definition no_final_newline : string := "1

2

3

100".

(** [example_terminated] with the lines inside two groups in another order. *)
Definition example_lines_swapped : string := "4
3

5

30
10
20

".

(** An input whose second line does not fit an [int] and whose third line
    is no number. *)
Definition unreadable_input : string := "1
99999999999
x

".

(** ** Machine integers: facts *)

Lemma wrap_in_range (z : Z) : in_range z -> wrap z = z.
Proof.
  unfold in_range, INT_MIN, INT_MAX, wrap. intros H.
  rewrite Z.mod_small by lia. lia.
Qed.

Lemma wrap_range (z : Z) : in_range (wrap z).
Proof.
  unfold in_range, INT_MIN, INT_MAX, wrap.
  pose proof (Z.mod_pos_bound (z + 2 ^ 31) (2 ^ 32) ltac:(lia)). lia.
Qed.

Lemma wrap_add_l (a b : Z) : wrap (wrap a + b) = wrap (a + b).
Proof.
  unfold wrap. f_equal.
  replace ((a + 2 ^ 31) mod 2 ^ 32 - 2 ^ 31 + b + 2 ^ 31)
    with ((a + 2 ^ 31) mod 2 ^ 32 + b) by lia.
  rewrite Zplus_mod_idemp_l. f_equal. lia.
Qed.

Lemma int_add_exact (a b : Z) : in_range (a + b) -> int_add a b = a + b.
Proof. apply wrap_in_range. Qed.

Lemma in_rangeb_spec (z : Z) : in_rangeb z = true <-> in_range z.
Proof.
  unfold in_rangeb, in_range. rewrite andb_true_iff, !Z.leb_le. tauto.
Qed.

(** ** The library calls on a few inputs *)

Example stoi_plain : stoi "30" = Ok 30.
Proof. reflexivity. Qed.

Example stoi_sign_space_rest : stoi "  -12abc" = Ok (-12).
Proof. reflexivity. Qed.

Example stoi_no_digit : stoi "abc" = Fail invalid_argument.
Proof. reflexivity. Qed.

Example stoi_too_large : stoi "2147483648" = Fail out_of_range.
Proof. reflexivity. Qed.

Example stoi_int_min : stoi "-2147483648" = Ok INT_MIN.
Proof. reflexivity. Qed.

Example getline_last_line_without_newline :
  getline "30" = Some ("30", EmptyString).
Proof. reflexivity. Qed.

Example getline_blank_line :
  getline (String newline "5") = Some (EmptyString, "5").
Proof. reflexivity. Qed.

Example lines_example_input :
  lines example_input = ["3"; "4"; ""; "5"; ""; "10"; "20"; "30"]%string.
Proof. reflexivity. Qed.

Example to_string_negative : to_string (-5) = "-5"%string.
Proof. reflexivity. Qed.

(** ** The reading loop: facts *)

Ltac rewrite_getline :=
  match goal with H : getline _ = _ |- _ => rewrite H end.

Ltac rewrite_body :=
  match goal with H : loop_body _ _ = _ |- _ => rewrite H end.

Lemma while_getline_eq (cin : string) (st : locals) :
  while_getline cin st =
  match getline cin with
  | None => Ok st
  | Some (line, rest) => st' <- loop_body line st ;; while_getline rest st'
  end.
Proof.
  funelim (while_getline cin st); rewrite_getline; simpl;
    try rewrite_body; reflexivity.
Qed.

Lemma lines_eq (cin : string) :
  lines cin =
  match getline cin with
  | None => []
  | Some (line, rest) => line :: lines rest
  end.
Proof.
  funelim (lines cin); rewrite_getline; reflexivity.
Qed.

Lemma while_getline_run_lines (cin : string) (st : locals) :
  while_getline cin st = run_lines (lines cin) st.
Proof.
  funelim (while_getline cin st); rewrite lines_eq; rewrite_getline; simpl;
    try rewrite_body; simpl; auto.
Qed.

Lemma run_lines_app (ls1 ls2 : list string) (st : locals) :
  run_lines (ls1 ++ ls2) st = st' <- run_lines ls1 st ;; run_lines ls2 st'.
Proof.
  revert st. induction ls1 as [|l ls1 IH]; intros st; simpl; [reflexivity|].
  destruct (loop_body l st); simpl; auto.
Qed.

Lemma while_getline_blank (rest : string) (st : locals) :
  while_getline (String newline rest) st =
  while_getline rest {| count := 0; elfs := elfs st ++ [count st] |}.
Proof. rewrite while_getline_eq. reflexivity. Qed.



Lemma reads_run_lines (ls : list string) (cin rest : string) (st st' : locals) :
  reads ls (cin, st) (rest, st') ->
  run_lines ls st = Ok st' /\ lines cin = ls ++ lines rest.
Proof.
  intros H. remember (cin, st) as c eqn:Ec. remember (rest, st') as c' eqn:Ec'.
  revert cin st Ec. induction H as [c | line ls c c1 c2 Hstep Hreads IH];
    intros cin st Ec; subst.
  - injection Ec as -> ->. split; reflexivity.
  - inversion Hstep as [cin0 st0 line0 rest0 st1 Hg Hb]; subst.
    destruct (IH eq_refl rest0 st1 eq_refl) as [Hr Hl].
    split.
    + simpl. rewrite Hb. simpl. exact Hr.
    + rewrite (lines_eq cin), Hg. simpl. now rewrite Hl.
Qed.

(** ** Sorting: facts *)

Lemma insert_perm (comp : Z -> Z -> bool) (x : Z) (l : list Z) :
  Permutation (insert comp x l) (x :: l).
Proof.
  induction l as [|y l IH]; simpl; [reflexivity|].
  destruct (comp x y); [reflexivity|].
  rewrite IH. apply perm_swap.
Qed.

Lemma sort_perm (comp : Z -> Z -> bool) (l : list Z) :
  Permutation (sort comp l) l.
Proof.
  induction l as [|x l IH]; simpl; [reflexivity|].
  rewrite insert_perm. now constructor.
Qed.

Lemma sort_length (comp : Z -> Z -> bool) (l : list Z) :
  List.length (sort comp l) = List.length l.
Proof. apply Permutation_length, sort_perm. Qed.

Lemma insert_descending (x : Z) (l : list Z) :
  descending l -> descending (insert greater x l).
Proof.
  unfold descending, greater.
  induction 1 as [|y l Hl IH Hy]; simpl.
  - repeat constructor.
  - destruct (Z.ltb_spec y x) as [Hlt|Hge].
    + constructor; [now constructor|].
      constructor; [lia|].
      eapply Forall_impl; [|exact Hy]. simpl. intros; lia.
    + constructor; [assumption|].
      eapply Permutation_Forall; [symmetry; apply insert_perm|].
      constructor; [lia | assumption].
Qed.

Lemma sort_descending (l : list Z) : descending (sort greater l).
Proof.
  induction l as [|x l IH]; simpl.
  - constructor.
  - now apply insert_descending.
Qed.

Lemma descending_unique (l1 l2 : list Z) :
  descending l1 -> descending l2 -> Permutation l1 l2 -> l1 = l2.
Proof.
  unfold descending. intros H1. revert l2.
  induction H1 as [|a t1 Ht1 IH Ha]; intros l2 H2 Hp.
  - apply Permutation_nil in Hp. now subst.
  - destruct H2 as [|b t2 Ht2 Hb].
    + symmetry in Hp. apply Permutation_nil in Hp. discriminate.
    + assert (a = b) as <-.
      { assert (In a (b :: t2)) as Hin1
          by (eapply Permutation_in; [exact Hp | now left]).
        assert (In b (a :: t1)) as Hin2
          by (eapply Permutation_in; [symmetry; exact Hp | now left]).
        rewrite Forall_forall in Ha, Hb.
        destruct Hin1 as [->|Hin1]; [reflexivity|].
        destruct Hin2 as [->|Hin2]; [reflexivity|].
        specialize (Ha _ Hin2). specialize (Hb _ Hin1). lia. }
      f_equal. apply IH; [assumption|].
      eapply Permutation_cons_inv; exact Hp.
Qed.

(** Whatever the algorithm, sorting in descending order gives this list. *)
Lemma sort_unique (l l' : list Z) :
  Permutation l l' -> descending l' -> sort greater l = l'.
Proof.
  intros Hp Hd. apply descending_unique; [apply sort_descending | assumption |].
  now rewrite sort_perm.
Qed.

Lemma sort_permutation_eq (l l' : list Z) :
  Permutation l l' -> sort greater l = sort greater l'.
Proof.
  intros Hp. apply sort_unique; [|apply sort_descending].
  now rewrite sort_perm.
Qed.

Lemma descending_app (l1 l2 : list Z) :
  descending l1 -> descending l2 ->
  (forall x y, In x l1 -> In y l2 -> y <= x) ->
  descending (l1 ++ l2).
Proof.
  unfold descending. intros H1 H2 H.
  induction H1 as [|a t Ht IH Ha]; simpl; [assumption|].
  constructor.
  - apply IH. intros x y Hx Hy. apply H; [now right | assumption].
  - apply Forall_app. split; [assumption|].
    rewrite Forall_forall. intros y Hy.
    specialize (H a y (or_introl eq_refl) Hy). lia.
Qed.

Lemma sum_perm (l1 l2 : list Z) : Permutation l1 l2 -> sum l1 = sum l2.
Proof. induction 1; simpl; lia. Qed.

(** The first three elements of the sorted list are three largest elements,
    and any three largest elements have their sum. *)
Lemma three_largest_sort (l : list Z) (a b c : Z) :
  three_largest l a b c ->
  exists a' b' c' tl,
    sort greater l = a' :: b' :: c' :: tl /\ a' + b' + c' = a + b + c.
Proof.
  intros (rest & Hp & Hrest).
  pose proof (sort_perm greater [a; b; c]) as Hp3.
  pose proof (sort_descending [a; b; c]) as Hd3.
  pose proof (sort_length greater [a; b; c]) as Hl3.
  destruct (sort greater [a; b; c]) as [|a' [|b' [|c' [|? ?]]]] eqn:E;
    try discriminate.
  exists a', b', c', (sort greater rest). split.
  - apply sort_unique.
    + rewrite Hp.
      change (a :: b :: c :: rest) with ([a; b; c] ++ rest).
      change (a' :: b' :: c' :: sort greater rest)
        with ([a'; b'; c'] ++ sort greater rest).
      apply Permutation_app; symmetry; [exact Hp3 | apply sort_perm].
    + change (descending ([a'; b'; c'] ++ sort greater rest)).
      apply descending_app; [assumption | apply sort_descending |].
      intros x y Hx Hy.
      assert (In x [a; b; c]) as Hx' by (eapply Permutation_in; eassumption).
      assert (In y rest) as Hy'
          by (eapply Permutation_in; [apply sort_perm | eassumption]).
      rewrite Forall_forall in Hrest. specialize (Hrest _ Hy').
      simpl in Hx'. intuition lia.
  - apply sum_perm in Hp3. simpl in Hp3. lia.
Qed.

(** ** Groups and block sums: facts *)

Lemma stoi_empty : stoi EmptyString = Fail invalid_argument.
Proof. reflexivity. Qed.

Lemma parses_not_empty (line : string) (v : Z) :
  parses line v -> empty line = false.
Proof.
  unfold parses. destruct line; [rewrite stoi_empty; discriminate | reflexivity].
Qed.

Lemma parses_in_range (line : string) (v : Z) : parses line v -> in_range v.
Proof.
  unfold parses, stoi. destruct (sign (skip_space line)) as [neg s].
  destruct (starts_with_digit s); [|discriminate].
  destruct (in_rangeb _) eqn:E; [|discriminate].
  intros H; injection H as <-. now apply in_rangeb_spec.
Qed.

Lemma fold_int_add (vs : list Z) (c : Z) :
  in_range c -> fold_left int_add vs c = wrap (c + sum vs).
Proof.
  revert c. induction vs as [|v vs IH]; intros c Hc; simpl.
  - rewrite Z.add_0_r. symmetry. now apply wrap_in_range.
  - rewrite IH by apply wrap_range.
    unfold int_add. rewrite wrap_add_l. f_equal. lia.
Qed.

Lemma fold_int_add_0 (vs : list Z) : fold_left int_add vs 0 = block_sum vs.
Proof.
  rewrite fold_int_add; [reflexivity|].
  unfold in_range, INT_MIN, INT_MAX. lia.
Qed.

Lemma sum_lines_parses (g : list string) (vs : list Z) (acc : Z) :
  Forall2 parses g vs -> sum_lines acc g = Ok (fold_left int_add vs acc).
Proof.
  intros H. revert acc. induction H as [|l v g vs Hl Hg IH]; intros acc; simpl.
  - reflexivity.
  - rewrite Hl. simpl. apply IH.
Qed.

Lemma sums_of_parses (gs : list (list string)) (vss : list (list Z)) :
  Forall2 (Forall2 parses) gs vss -> sums_of gs = Ok (map block_sum vss).
Proof.
  induction 1 as [|g vs gs vss Hg Hgs IH]; simpl; [reflexivity|].
  rewrite (sum_lines_parses _ _ _ Hg), IH. simpl.
  now rewrite fold_int_add_0.
Qed.

Lemma run_lines_group (g : list string) (st : locals) :
  Forall (fun line => empty line = false) g ->
  run_lines g st =
  c <- sum_lines (count st) g ;; Ok {| count := c; elfs := elfs st |}.
Proof.
  intros H. revert st. induction H as [|l g Hl Hg IH]; intros st; simpl.
  - now destruct st.
  - unfold loop_body. rewrite Hl.
    destruct (stoi l) as [v|f]; simpl; [|reflexivity].
    now rewrite IH.
Qed.

Lemma run_lines_flatten (gs : list (list string)) (t : list string)
      (st : locals) :
  Forall (Forall (fun line => empty line = false)) gs ->
  count st = 0 ->
  run_lines (flatten gs t) st =
  cs <- sums_of gs ;; run_lines t {| count := 0; elfs := elfs st ++ cs |}.
Proof.
  unfold flatten. intros H. revert st.
  induction H as [|g gs Hg Hgs IH]; intros st Hc; simpl.
  - rewrite app_nil_r. destruct st as [c e]. simpl in Hc. now subst.
  - rewrite <- !app_assoc. rewrite run_lines_app, (run_lines_group _ _ Hg), Hc.
    destruct (sum_lines 0 g) as [c|f]; simpl; [|reflexivity].
    unfold push_back. rewrite IH by reflexivity. simpl.
    destruct (sums_of gs) as [cs|f]; simpl; [|reflexivity].
    now rewrite <- app_assoc.
Qed.

(** What the loop appends to [elfs] does not depend on what [elfs] holds. *)
Lemma run_lines_elfs (ls : list string) (c : Z) (e : list Z) :
  run_lines ls {| count := c; elfs := e |} =
  s <- run_lines ls {| count := c; elfs := [] |} ;;
  Ok {| count := count s; elfs := e ++ elfs s |}.
Proof.
  revert c e. induction ls as [|l ls IH]; intros c e; simpl.
  - now rewrite app_nil_r.
  - unfold loop_body. destruct (empty l); simpl.
    + unfold push_back. rewrite IH.
      change ([] ++ [c]) with [c]. rewrite (IH 0 [c]).
      destruct (run_lines ls _) as [s|f]; simpl; [|reflexivity].
      now rewrite <- app_assoc.
    + destruct (stoi l) as [v|f]; simpl; [|reflexivity]. apply IH.
Qed.

Lemma run_lines_length (ls : list string) (st st' : locals) :
  run_lines ls st = Ok st' ->
  List.length (elfs st') = (List.length (elfs st) + blank_lines ls)%nat.
Proof.
  unfold blank_lines. revert st.
  induction ls as [|l ls IH]; intros st H; simpl in *.
  - injection H as <-. lia.
  - unfold loop_body in H. destruct (empty l); simpl in *.
    + apply IH in H. simpl in H. unfold push_back in H.
      rewrite length_app in H. simpl in H. lia.
    + destruct (stoi l) as [v|f]; simpl in H; [|discriminate].
      apply IH in H. simpl in H. lia.
Qed.

(** ** After the loop: facts *)

Lemma finish_top3 (st : locals) (a b c : Z) (tl : list Z) :
  sort greater (elfs st) = a :: b :: c :: tl ->
  finish st = Ok (to_string (wrap (a + b + c)) ++ endl)%string.
Proof.
  intros H. unfold finish, iter. simpl. rewrite H. simpl.
  unfold int_add. simpl. do 3 f_equal.
  rewrite wrap_add_l, <- Z.add_assoc, wrap_add_l. f_equal. lia.
Qed.

Lemma finish_short (st : locals) :
  (List.length (elfs st) < 3)%nat ->
  finish st = Fail (out_of_bounds (List.length (elfs st))).
Proof.
  intros H. unfold finish, iter. simpl.
  rewrite <- (sort_length greater (elfs st)) in *.
  destruct (sort greater (elfs st)) as [|a [|b [|c tl]]]; simpl in *;
    try reflexivity; lia.
Qed.

Lemma finish_perm (st st' : locals) :
  Permutation (elfs st) (elfs st') -> finish st = finish st'.
Proof.
  intros H. unfold finish. simpl. now rewrite (sort_permutation_eq _ _ H).
Qed.

Lemma main_lines (cin : string) :
  main cin = st <- run_lines (lines cin) init ;; finish st.
Proof. unfold main. now rewrite while_getline_run_lines. Qed.

Lemma three_largest_exists (l : list Z) :
  (3 <= List.length l)%nat -> exists a b c, three_largest l a b c.
Proof.
  intros Hlen.
  pose proof (sort_perm greater l) as Hp.
  pose proof (sort_descending l) as Hd.
  rewrite <- (sort_length greater l) in Hlen.
  destruct (sort greater l) as [|a [|b [|c tl]]]; simpl in Hlen; try lia.
  exists a, b, c, tl. split; [now symmetry|].
  unfold descending in Hd.
  inversion Hd as [|? ? Hd1 Ha]; subst.
  inversion Hd1 as [|? ? Hd2 Hb]; subst.
  inversion Hd2 as [|? ? Hd3 Hc]; subst.
  inversion Ha as [|? ? Hab Ha']; subst.
  inversion Ha' as [|? ? Hac Ha'']; subst.
  inversion Hb as [|? ? Hbc Hb']; subst.
  rewrite Forall_forall in *. intros x Hx.
  specialize (Ha'' x Hx). specialize (Hb' x Hx). specialize (Hc x Hx). lia.
Qed.

Lemma sum_lines_inv (g : list string) (acc c : Z) :
  sum_lines acc g = Ok c ->
  exists vs, Forall2 parses g vs /\ c = fold_left int_add vs acc.
Proof.
  revert acc. induction g as [|l g IH]; intros acc H; simpl in H.
  - injection H as <-. exists []. split; [constructor | reflexivity].
  - destruct (stoi l) as [v|f] eqn:E; simpl in H; [|discriminate].
    destruct (IH _ H) as (vs & Hvs & ->).
    exists (v :: vs). split; [now constructor | reflexivity].
Qed.

Lemma sums_of_inv (gs : list (list string)) (cs : list Z) :
  sums_of gs = Ok cs ->
  exists vss, Forall2 (Forall2 parses) gs vss /\ cs = map block_sum vss.
Proof.
  revert cs. induction gs as [|g gs IH]; intros cs H; simpl in H.
  - injection H as <-. exists []. split; [constructor | reflexivity].
  - destruct (sum_lines 0 g) as [c|f] eqn:E; simpl in H; [|discriminate].
    destruct (sums_of gs) as [cs'|f]; simpl in H; [|discriminate].
    injection H as <-.
    destruct (sum_lines_inv _ _ _ E) as (vs & Hvs & ->).
    destruct (IH _ eq_refl) as (vss & Hvss & ->).
    exists (vs :: vss). split; [now constructor|].
    simpl. now rewrite fold_int_add_0.
Qed.

Lemma same_sums_trans (r1 r2 r3 : result (list Z)) :
  same_sums r1 r2 -> same_sums r2 r3 -> same_sums r1 r3.
Proof.
  destruct r1, r2, r3; simpl; try tauto. apply Permutation_trans.
Qed.

Lemma sums_of_perm (gs gs' : list (list string)) :
  Permutation gs gs' -> same_sums (sums_of gs) (sums_of gs').
Proof.
  induction 1 as [| g gs gs' Hp IH | g1 g2 gs | gs1 gs2 gs3 H1 IH1 H2 IH2].
  - simpl. constructor.
  - simpl. destruct (sum_lines 0 g); simpl; [|exact I].
    destruct (sums_of gs), (sums_of gs'); simpl in *; auto.
  - simpl. destruct (sum_lines 0 g1), (sum_lines 0 g2); simpl; auto.
    destruct (sums_of gs); simpl; auto. apply perm_swap.
  - eapply same_sums_trans; eassumption.
Qed.

Lemma split_groups_flatten (ls : list string) :
  let (gs, t) := split_groups ls in
  ls = flatten gs t /\
  Forall (Forall (fun line => empty line = false)) gs /\
  Forall (fun line => empty line = false) t.
Proof.
  induction ls as [|l ls IH]; simpl.
  - repeat split; constructor.
  - destruct (split_groups ls) as [gs t]. destruct IH as (-> & Hgs & Ht).
    destruct (empty l) eqn:E.
    + destruct l; [|discriminate]. repeat split; auto.
    + destruct gs as [|g gs].
      * repeat split; auto.
      * inversion Hgs; subst. repeat split; auto.
Qed.

(** A loop that ends normally has read all the lines, one after the other. *)
Lemma reads_complete (cin : string) (st st' : locals) :
  while_getline cin st = Ok st' ->
  reads (lines cin) (cin, st) (EmptyString, st').
Proof.
  funelim (while_getline cin st); intros Hw; rewrite lines_eq; rewrite_getline.
  - injection Hw as <-. destruct cin; [constructor | discriminate].
  - econstructor; [econstructor; eassumption | auto].
  - discriminate.
Qed.





Lemma parses_groups_not_empty (gs : list (list string)) (vss : list (list Z)) :
  Forall2 (Forall2 parses) gs vss ->
  Forall (Forall (fun line => empty line = false)) gs.
Proof.
  induction 1 as [|g vs gs vss Hg Hgs IH]; constructor; [|assumption].
  induction Hg as [|l v g vs Hl Hg IHg]; constructor; [|assumption].
  eapply parses_not_empty; eassumption.
Qed.

Lemma block_sum_exact (vs : list Z) : in_range (sum vs) -> block_sum vs = sum vs.
Proof. apply wrap_in_range. Qed.

(** The loop on an input whose lines are the groups [gs], each with its
    blank line, and then the lines [t] without a blank one. *)
Lemma while_getline_flatten (cin : string) (gs : list (list string))
      (t : list string) :
  lines cin = flatten gs t ->
  Forall (Forall (fun line => empty line = false)) gs ->
  Forall (fun line => empty line = false) t ->
  while_getline cin init =
  cs <- sums_of gs ;; c <- sum_lines 0 t ;; Ok {| count := c; elfs := cs |}.
Proof.
  intros Hl Hgs Ht.
  rewrite while_getline_run_lines, Hl, run_lines_flatten by auto.
  destruct (sums_of gs) as [cs|f]; simpl; [|reflexivity].
  now rewrite run_lines_group.
Qed.

(** ** Properties of the program *)

(** C1. For every input whose groups are each terminated by a blank line,
    whose lines are integers, and that records at least three block sums,
    the loop records the sum of each group, and the program prints the sum
    of the three largest of these block sums.  Sums are sums of [int]; they
    are the plain sums of integers when these fit an [int]. *)
Theorem top_three_sum (cin : string) (gs : list (list string))
        (vss : list (list Z)) :
  lines cin = flatten gs [] ->
  Forall2 (Forall2 parses) gs vss ->
  (3 <= List.length vss)%nat ->
  while_getline cin init = Ok {| count := 0; elfs := map block_sum vss |} /\
  (exists a b c, three_largest (map block_sum vss) a b c) /\
  (forall a b c,
      three_largest (map block_sum vss) a b c ->
      main cin = Ok (to_string (wrap (a + b + c)) ++ endl)%string) /\
  (Forall (fun vs => in_range (sum vs)) vss ->
   forall a b c,
      three_largest (map sum vss) a b c ->
      in_range (a + b + c) ->
      main cin = Ok (to_string (a + b + c) ++ endl)%string).
Proof.
  intros Hl Hp Hlen.
  assert (while_getline cin init =
          Ok {| count := 0; elfs := map block_sum vss |}) as Hw.
  { rewrite (while_getline_flatten cin gs []); auto.
    - now rewrite (sums_of_parses _ _ Hp).
    - eapply parses_groups_not_empty; eassumption. }
  assert (forall a b c,
             three_largest (map block_sum vss) a b c ->
             main cin = Ok (to_string (wrap (a + b + c)) ++ endl)%string) as Hm.
  { intros a b c H3. unfold main. rewrite Hw. simpl.
    destruct (three_largest_sort _ _ _ _ H3) as (a' & b' & c' & tl & Hs & <-).
    eapply finish_top3. exact Hs. }
  split; [exact Hw|]. split; [|split; [exact Hm|]].
  - apply three_largest_exists. now rewrite length_map.
  - intros Hr a b c H3 Habc.
    rewrite <- (wrap_in_range _ Habc). apply Hm.
    erewrite map_ext_Forall; [exact H3|].
    eapply Forall_impl; [|exact Hr]. apply block_sum_exact.
Qed.

Lemma top_three_sum_witness :
  main example_terminated = Ok "72
"%string.
Proof.
  refine (proj1 (proj2 (proj2 (top_three_sum example_terminated
            [["3"; "4"]; ["5"]; ["10"; "20"; "30"]]%string
            [[3; 4]; [5]; [10; 20; 30]] eq_refl _ _))) 60 7 5 _).
  - repeat constructor.
  - simpl. lia.
  - exists []. split; [|constructor]. vm_compute.
    apply Permutation_sym, (Permutation_cons_app [7; 5] []). reflexivity.
Defined.

(** C2, as the program has it.  On the lines of the example followed by a
    blank line, so that the group 10, 20, 30 is terminated like the others,
    the loop records the block sums 7, 5 and 60 and the output is 72. *)
Theorem example_prints_72 :
  example_terminated = (example_input ++ endl)%string /\
  while_getline example_terminated init =
    Ok {| count := 0; elfs := [7; 5; 60] |} /\
  main example_terminated = Ok "72
"%string.
Proof. repeat split; vm_compute; reflexivity. Qed.

(** C2, as stated, fails.  On the input of the example the last group is
    not followed by a blank line: the loop records 7 and 5 only, 60 stays in
    the accumulator, the read at index 2 is out of bounds, and 72 is not
    printed. *)
Lemma example_output_is_not_72 :
  while_getline example_input init = Ok {| count := 60; elfs := [7; 5] |} /\
  main example_input = Fail (out_of_bounds 2) /\
  printed (main example_input) <> Some "72
"%string.
Proof.
  repeat split; try (vm_compute; reflexivity).
  vm_compute. discriminate.
Qed.

(** C3. For every input that ends with a non-blank line (its lines are the
    groups [gs], each with its blank line, then the final group [t], not
    empty; [split_groups_flatten] gives that form for any lines), whenever
    the loop ends normally: [elfs] holds the block sums of
    the groups [gs] only, the sum of the final group is the value left in
    the accumulator, and the program answers as on the input without the
    final group. *)
Theorem trailing_group_not_recorded (cin : string) (gs : list (list string))
        (t : list string) (st : locals) :
  lines cin = flatten gs t ->
  Forall (Forall (fun line => empty line = false)) gs ->
  Forall (fun line => empty line = false) t ->
  t <> [] ->
  while_getline cin init = Ok st ->
  exists vss vt,
    Forall2 (Forall2 parses) gs vss /\ Forall2 parses t vt /\
    elfs st = map block_sum vss /\
    count st = block_sum vt /\
    forall cin0, lines cin0 = flatten gs [] -> main cin = main cin0.
Proof.
  intros Hl Hgs Ht _ Hw.
  rewrite (while_getline_flatten cin gs t Hl Hgs Ht) in Hw.
  destruct (sums_of gs) as [cs|f] eqn:Ecs; simpl in Hw; [|discriminate].
  destruct (sum_lines 0 t) as [c|f] eqn:Ec; simpl in Hw; [|discriminate].
  injection Hw as <-.
  destruct (sums_of_inv _ _ Ecs) as (vss & Hvss & ->).
  destruct (sum_lines_inv _ _ _ Ec) as (vt & Hvt & ->).
  exists vss, vt. repeat split; auto.
  - simpl. apply fold_int_add_0.
  - intros cin0 Hl0. unfold main.
    rewrite (while_getline_flatten cin gs t Hl Hgs Ht).
    rewrite (while_getline_flatten cin0 gs [] Hl0 Hgs (Forall_nil _)).
    rewrite Ecs, Ec. reflexivity.
Qed.

Lemma trailing_group_not_recorded_witness :
  exists vss vt,
    Forall2 (Forall2 parses) [["1"]; ["2"]; ["3"]]%string vss /\
    Forall2 parses ["100"%string] vt /\
    [1; 2; 3] = map block_sum vss /\
    100 = block_sum vt /\
    forall cin0,
      lines cin0 = flatten [["1"]; ["2"]; ["3"]]%string [] ->
      main trailing_last = main cin0.
Proof.
  refine (trailing_group_not_recorded trailing_last
            [["1"]; ["2"]; ["3"]]%string ["100"%string]
            {| count := 100; elfs := [1; 2; 3] |} eq_refl _ _ _ eq_refl).
  - repeat constructor.
  - repeat constructor.
  - discriminate.
Defined.

(** C4. When the loop ends normally with fewer than three block sums, the
    reads of the sorted vector at indices 0, 1, 2 reach an index that is out
    of bounds (the number of block sums) and the run ends there; with at
    least three block sums the three reads are in bounds and the run ends
    with an output. *)
Theorem top3_window_bounds (cin : string) (st : locals) :
  while_getline cin init = Ok st ->
  let n := List.length (elfs st) in
  ((n < 3)%nat ->
     index (sort greater (elfs st)) n = Fail (out_of_bounds n) /\
     main cin = Fail (out_of_bounds n)) /\
  ((3 <= n)%nat ->
     (forall i, (i < 3)%nat -> exists x, index (sort greater (elfs st)) i = Ok x) /\
     (exists out, main cin = Ok out) /\
     (forall i, main cin <> Fail (out_of_bounds i))).
Proof.
  intros Hw n. unfold main. rewrite Hw. simpl. subst n. split.
  - intros Hn. split; [|now apply finish_short].
    unfold index.
    destruct (nth_error _ _) eqn:E; [|reflexivity].
    assert (nth_error (sort greater (elfs st)) (List.length (elfs st)) <> None)
      as Hne by congruence.
    apply nth_error_Some in Hne. rewrite sort_length in Hne. lia.
  - intros Hn.
    destruct (three_largest_exists _ Hn) as (a & b & c & H3).
    destruct (three_largest_sort _ _ _ _ H3) as (a' & b' & c' & tl & Hs & _).
    rewrite (finish_top3 _ _ _ _ _ Hs). repeat split.
    + intros i Hi. rewrite Hs.
      destruct i as [|[|[|i]]]; [eexists; reflexivity .. | lia].
    + eexists. reflexivity.
    + intros i. discriminate.
Qed.

Lemma top3_window_bounds_witness :
  index (sort greater [7; 5]) 2 = Fail (out_of_bounds 2) /\
  main example_input = Fail (out_of_bounds 2).
Proof.
  refine (proj1 (top3_window_bounds example_input
                   {| count := 60; elfs := [7; 5] |} eq_refl) _).
  simpl. lia.
Defined.

(** C5. When the loop records exactly three block sums, the program prints
    their sum (a sum of [int], the plain sum when it fits an [int]), and so
    does it on any input that records the same three block sums in another
    order. *)
Theorem exactly_three_sum (cin : string) (st : locals) :
  while_getline cin init = Ok st ->
  List.length (elfs st) = 3%nat ->
  main cin = Ok (to_string (wrap (sum (elfs st))) ++ endl)%string /\
  (in_range (sum (elfs st)) ->
   main cin = Ok (to_string (sum (elfs st)) ++ endl)%string) /\
  forall cin' st',
    while_getline cin' init = Ok st' ->
    Permutation (elfs st) (elfs st') ->
    main cin' = main cin.
Proof.
  intros Hw Hlen.
  assert (main cin = Ok (to_string (wrap (sum (elfs st))) ++ endl)%string)
    as Hm.
  { unfold main. rewrite Hw. simpl.
    pose proof (sort_perm greater (elfs st)) as Hp.
    pose proof (sort_length greater (elfs st)) as Hl.
    destruct (sort greater (elfs st)) as [|a [|b [|c [|d tl]]]] eqn:Hs;
      simpl in Hl; try lia.
    rewrite (finish_top3 _ _ _ _ _ Hs).
    apply sum_perm in Hp. simpl in Hp. rewrite <- Hp.
    replace (a + (b + (c + 0))) with (a + b + c) by lia. reflexivity. }
  split; [exact Hm|]. split.
  - intros Hr. now rewrite Hm, (wrap_in_range _ Hr).
  - intros cin' st' Hw' Hp. unfold main. rewrite Hw, Hw'. simpl.
    apply finish_perm. now symmetry.
Qed.

Lemma exactly_three_sum_witness :
  main example_terminated = Ok "72
"%string /\
  (in_range 72 -> main example_terminated = Ok "72
"%string) /\
  forall cin' st',
    while_getline cin' init = Ok st' ->
    Permutation [7; 5; 60] (elfs st') ->
    main cin' = main example_terminated.
Proof.
  exact (exactly_three_sum example_terminated
           {| count := 0; elfs := [7; 5; 60] |} eq_refl eq_refl).
Defined.

(** C6, as the program has it.  Permuting the groups that a blank line
    terminates, with the lines after the last blank line left in place,
    leaves the printed result unchanged; and two inputs that record the
    same block sums in different orders give the same result. *)
Theorem terminated_groups_order (cin cin' : string)
        (gs gs' : list (list string)) (t : list string) :
  lines cin = flatten gs t ->
  lines cin' = flatten gs' t ->
  Forall (Forall (fun line => empty line = false)) gs ->
  Permutation gs gs' ->
  printed (main cin) = printed (main cin') /\
  forall cin1 cin2 st1 st2,
    while_getline cin1 init = Ok st1 ->
    while_getline cin2 init = Ok st2 ->
    Permutation (elfs st1) (elfs st2) ->
    main cin1 = main cin2.
Proof.
  intros Hl Hl' Hgs Hp. split; cycle 1.
  { intros cin1 cin2 st1 st2 H1 H2 Hp12. unfold main.
    rewrite H1, H2. simpl. now apply finish_perm. }
  assert (Forall (Forall (fun line => empty line = false)) gs') as Hgs'
      by (eapply Permutation_Forall; eassumption).
  rewrite !main_lines, Hl, Hl', !run_lines_flatten by auto.
  pose proof (sums_of_perm _ _ Hp) as Hs. simpl.
  destruct (sums_of gs) as [cs|f], (sums_of gs') as [cs'|f'];
    simpl in *; try tauto.
  rewrite (run_lines_elfs t 0 cs), (run_lines_elfs t 0 cs').
  destruct (run_lines t _) as [s|f]; simpl; [|reflexivity].
  f_equal. apply finish_perm. simpl. now apply Permutation_app_tail.
Qed.

Lemma terminated_groups_order_witness :
  printed (main example_terminated) = printed (main example_reordered).
Proof.
  refine (proj1 (terminated_groups_order example_terminated example_reordered
            [["3"; "4"]; ["5"]; ["10"; "20"; "30"]]%string
            [["10"; "20"; "30"]; ["3"; "4"]; ["5"]]%string
            [] eq_refl eq_refl _ _)).
  - repeat constructor.
  - apply Permutation_sym.
    apply (Permutation_cons_app [["3"; "4"]; ["5"]] [] ["10"; "20"; "30"])%string.
    apply Permutation_refl.
Defined.

(** C6, as stated, fails: the two inputs below have the same four groups
    and the same blank lines, the group 100 being last (and not terminated)
    in one and first in the other, and the outputs differ. *)
Lemma trailing_group_order_matters :
  lines trailing_last = flatten [["1"]; ["2"]; ["3"]]%string ["100"%string] /\
  lines trailing_first = flatten [["100"]; ["1"]; ["2"]]%string ["3"%string] /\
  Permutation [["1"]; ["2"]; ["3"]; ["100"]]%string
              [["100"]; ["1"]; ["2"]; ["3"]]%string /\
  blank_lines (lines trailing_last) = blank_lines (lines trailing_first) /\
  printed (main trailing_last) = Some "6
"%string /\
  printed (main trailing_first) = Some "103
"%string /\
  printed (main trailing_last) <> printed (main trailing_first).
Proof.
  repeat split; try (vm_compute; reflexivity).
  - apply Permutation_sym.
    apply (Permutation_cons_app [["1"]; ["2"]; ["3"]] [] ["100"])%string.
    apply Permutation_refl.
  - vm_compute. discriminate.
Qed.

(** C7. At every point of the scan (after the lines [ls] have been read,
    whatever is left to read) the number of recorded block sums is the
    number of blank lines read; in particular at the end of the input. *)
Theorem recorded_is_blank_lines (cin : string) (ls : list string)
        (rest : string) (st : locals) :
  reads ls (cin, init) (rest, st) ->
  List.length (elfs st) = blank_lines ls /\
  forall st_end,
    while_getline cin init = Ok st_end ->
    reads (lines cin) (cin, init) (EmptyString, st_end) /\
    List.length (elfs st_end) = blank_lines (lines cin).
Proof.
  intros Hr. split.
  - apply reads_run_lines in Hr. destruct Hr as [Hr _].
    apply run_lines_length in Hr. simpl in Hr. lia.
  - intros st_end Hw. split; [now apply reads_complete|].
    rewrite while_getline_run_lines in Hw.
    apply run_lines_length in Hw. simpl in Hw. lia.
Qed.

Lemma recorded_is_blank_lines_witness :
  List.length [7; 5] = blank_lines ["3"; "4"; ""; "5"; ""; "10"]%string /\
  forall st_end,
    while_getline example_input init = Ok st_end ->
    reads (lines example_input) (example_input, init) (EmptyString, st_end) /\
    List.length (elfs st_end) = blank_lines (lines example_input).
Proof.
  refine (recorded_is_blank_lines example_input
            ["3"; "4"; ""; "5"; ""; "10"]%string
            ("20
30
")%string {| count := 10; elfs := [7; 5] |} _).
  repeat (eapply reads_cons;
          [eapply step_line; [reflexivity | reflexivity] |]).
  apply reads_nil.
Defined.

(** C8. For every line that the loop reads: an empty line appends the
    accumulator to [elfs] and resets the accumulator to zero; a line that
    [stoi] reads as [v] adds [v] to the accumulator (an addition of [int],
    the plain sum when that fits an [int]) and leaves [elfs] unchanged.  The
    loop then goes on from that state. *)
Theorem loop_body_effect (cin line rest : string) (st : locals) :
  getline cin = Some (line, rest) ->
  (line = EmptyString ->
     let st' := {| count := 0; elfs := elfs st ++ [count st] |} in
     loop_body line st = Ok st' /\
     while_getline cin st = while_getline rest st') /\
  (forall v, parses line v ->
     let st' := {| count := int_add (count st) v; elfs := elfs st |} in
     loop_body line st = Ok st' /\
     while_getline cin st = while_getline rest st' /\
     (in_range (count st + v) -> count st' = count st + v)).
Proof.
  intros Hg. split.
  - intros -> st'. split; [reflexivity|].
    rewrite (while_getline_eq cin), Hg. reflexivity.
  - intros v Hv st'.
    assert (loop_body line st = Ok st') as Hb.
    { unfold loop_body. rewrite (parses_not_empty _ _ Hv), Hv. reflexivity. }
    repeat split; [assumption | | apply int_add_exact].
    rewrite (while_getline_eq cin), Hg, Hb. reflexivity.
Qed.

Lemma loop_body_effect_witness :
  let st' := {| count := 7; elfs := [] |} in
  loop_body "4" {| count := 3; elfs := [] |} = Ok st' /\
  while_getline ("4

") {| count := 3; elfs := [] |} = while_getline (String newline "") st' /\
  (in_range (3 + 4) -> count st' = 3 + 4).
Proof.
  exact (proj2 (loop_body_effect ("4

") "4" (String newline "") {| count := 3; elfs := [] |} eq_refl)
           4 eq_refl).
Defined.




(** C10. Every blank line appends exactly one block sum: the loop body on
    an empty line appends the accumulator and resets it.  From any state, a
    run of [k + 1] blank lines records the accumulator and then [k] zeros;
    at the start of the input a run of [k] blank lines records [k] zeros.
    This is the state the loop is in after these lines, whatever follows,
    and the state it ends in when nothing follows. *)
Theorem blank_lines_record_zero :
  (forall st,
      loop_body EmptyString st =
      Ok {| count := 0; elfs := elfs st ++ [count st] |}) /\
  (forall k rest st,
      reads (repeat EmptyString (S k)) (blank_run (S k) rest, st)
            (rest, {| count := 0; elfs := elfs st ++ count st :: repeat 0 k |})) /\
  (forall k rest,
      reads (repeat EmptyString k) (blank_run k rest, init)
            (rest, {| count := 0; elfs := repeat 0 k |})) /\
  (forall k st,
      while_getline (blank_run (S k) EmptyString) st =
      Ok {| count := 0; elfs := elfs st ++ count st :: repeat 0 k |}) /\
  (forall k,
      while_getline (blank_run k EmptyString) init =
      Ok {| count := 0; elfs := repeat 0 k |}) /\
  (forall k rest st,
      while_getline (blank_run (S k) rest) st =
      while_getline rest
        {| count := 0; elfs := elfs st ++ count st :: repeat 0 k |}).
Proof.
  assert (forall k rest st,
             reads (repeat EmptyString (S k)) (blank_run (S k) rest, st)
               (rest, {| count := 0;
                         elfs := elfs st ++ count st :: repeat 0 k |}))
    as Hreads.
  { induction k as [|k IH]; intros rest st.
    - eapply reads_cons; [|apply reads_nil].
      apply step_line; reflexivity.
    - change (repeat EmptyString (S (S k)))
        with (EmptyString :: repeat EmptyString (S k)).
      change (blank_run (S (S k)) rest)
        with (String newline (blank_run (S k) rest)).
      eapply reads_cons; [apply step_line; reflexivity|].
      specialize (IH rest {| count := 0; elfs := elfs st ++ [count st] |}).
      simpl elfs in IH. simpl count in IH.
      rewrite <- app_assoc in IH. exact IH. }
  assert (forall k rest st,
             while_getline (blank_run (S k) rest) st =
             while_getline rest
               {| count := 0; elfs := elfs st ++ count st :: repeat 0 k |})
    as Hrun.
  { intros k rest st. specialize (Hreads k rest st).
    apply reads_run_lines in Hreads. destruct Hreads as [Hr Hl].
    rewrite while_getline_run_lines, Hl, run_lines_app, Hr. simpl.
    now rewrite while_getline_run_lines. }
  assert (forall st, while_getline EmptyString st = Ok st) as Hend
      by (intros st; now rewrite while_getline_eq).
  split; [reflexivity|]. split; [exact Hreads|]. split; [|split; [|split]].
  - intros [|k] rest; [apply reads_nil | apply Hreads].
  - intros k st. now rewrite Hrun, Hend.
  - intros [|k]; [apply Hend | now rewrite Hrun, Hend].
  - exact Hrun.
Qed.

(** ** Lines and text: facts *)

Lemma append_assoc (a b c : string) :
  ((a ++ b) ++ c = a ++ (b ++ c))%string.
Proof. induction a as [|x a IH]; simpl; [reflexivity | now rewrite IH]. Qed.

Lemma append_empty_r (a : string) : (a ++ EmptyString)%string = a.
Proof. induction a as [|x a IH]; simpl; [reflexivity | now rewrite IH]. Qed.

Lemma split_line_no_newline (l : string) :
  has_newline l = false -> split_line l = (l, EmptyString).
Proof.
  induction l as [|c l IH]; simpl; [reflexivity|].
  intros H. apply orb_false_iff in H. destruct H as [Hc Hl].
  rewrite Hc, (IH Hl). reflexivity.
Qed.

Lemma split_line_line (l r : string) :
  has_newline l = false -> split_line (l ++ String newline r) = (l, r).
Proof.
  induction l as [|c l IH]; simpl; [reflexivity|].
  intros H. apply orb_false_iff in H. destruct H as [Hc Hl].
  rewrite Hc, (IH Hl). reflexivity.
Qed.

(** [getline] loses no character: the input is the line alone, or the line,
    a newline and the rest. *)
Lemma split_line_spec (s : string) :
  has_newline (fst (split_line s)) = false /\
  ((has_newline s = false /\ split_line s = (s, EmptyString)) \/
   (has_newline s = true /\
    s = (fst (split_line s) ++ String newline (snd (split_line s)))%string)).
Proof.
  induction s as [|c s IH]; simpl.
  - split; [reflexivity | left; split; reflexivity].
  - destruct (is_newline c) eqn:Hc; simpl.
    + split; [reflexivity|]. right. split; [reflexivity|].
      unfold is_newline in Hc. apply Ascii.eqb_eq in Hc. now subst.
    + destruct (split_line s) as [l r]. simpl in *. rewrite Hc.
      destruct IH as [Hl [[Hs E]|[Hs E]]].
      * split; [exact Hl|]. left. split; [exact Hs|].
        injection E as -> ->. reflexivity.
      * split; [exact Hl|]. right. split; [exact Hs|]. now rewrite <- E.
Qed.

Lemma ends_with_newline_line (l r : string) :
  ends_with_newline (l ++ String newline r) =
  match r with
  | EmptyString => true
  | String _ _ => ends_with_newline r
  end.
Proof.
  induction l as [|c l IH]; simpl.
  - destruct r; reflexivity.
  - rewrite IH. destruct (l ++ String newline r)%string eqn:E; [|reflexivity].
    destruct l; discriminate.
Qed.

Lemma ends_with_newline_has (s : string) :
  ends_with_newline s = true -> has_newline s = true.
Proof.
  induction s as [|c s IH]; simpl; [discriminate|].
  destruct s as [|c' s'].
  - intros ->. reflexivity.
  - intros H. rewrite (IH H). apply orb_true_r.
Qed.

Lemma lines_empty : lines EmptyString = [].
Proof. now rewrite lines_eq. Qed.

Lemma lines_line (l r : string) :
  has_newline l = false -> lines (l ++ String newline r) = l :: lines r.
Proof.
  intros H. rewrite lines_eq. unfold getline.
  destruct (l ++ String newline r)%string eqn:E.
  - destruct l; discriminate.
  - rewrite <- E, (split_line_line _ _ H). reflexivity.
Qed.

Lemma lines_last (l : string) :
  l <> EmptyString -> has_newline l = false -> lines l = [l].
Proof.
  intros Hne H. rewrite lines_eq. unfold getline.
  destruct l as [|c l]; [congruence|].
  rewrite (split_line_no_newline _ H), lines_empty. reflexivity.
Qed.

Lemma lines_unlines_app (ls : list string) (rest : string) :
  Forall (fun l => has_newline l = false) ls ->
  lines (unlines ls ++ rest) = ls ++ lines rest.
Proof.
  induction 1 as [|l ls Hl Hls IH]; simpl; [reflexivity|].
  rewrite append_assoc. simpl. rewrite (lines_line _ _ Hl), IH. reflexivity.
Qed.

(** Induction on an input, line by line. *)
Lemma input_ind (P : string -> Prop) :
  P EmptyString ->
  (forall l, l <> EmptyString -> has_newline l = false -> P l) ->
  (forall l r, has_newline l = false -> P r -> P (l ++ String newline r)%string) ->
  forall cin, P cin.
Proof.
  intros H0 Hlast Hline cin.
  remember (String.length cin) as n eqn:En.
  revert cin En. induction n as [n IH] using lt_wf_ind. intros cin En.
  destruct (split_line_spec cin) as [Hl [[Hs E]|[Hs E]]].
  - destruct cin as [|c s]; [exact H0|]. now apply Hlast.
  - rewrite E. apply Hline; [exact Hl|].
    apply (IH (String.length (snd (split_line cin)))); [|reflexivity].
    subst n. destruct cin as [|c s]; [discriminate|].
    apply (getline_length _ (fst (split_line (String c s)))).
    unfold getline. now destruct (split_line (String c s)).
Qed.

Lemma lines_final_newline (cin : string) :
  cin <> EmptyString -> ends_with_newline cin = false ->
  lines (cin ++ endl) = lines cin.
Proof.
  induction cin as [|l Hne Hl|l r Hl IH] using input_ind.
  - congruence.
  - intros _ _. unfold endl. rewrite (lines_line _ _ Hl), lines_empty.
    now rewrite lines_last.
  - intros _ He. rewrite ends_with_newline_line in He.
    destruct r as [|c r]; [discriminate|].
    rewrite append_assoc. simpl.
    rewrite !(lines_line _ _ Hl). f_equal.
    apply IH; [discriminate | exact He].
Qed.

Lemma lines_no_newline (cin : string) :
  Forall (fun l => has_newline l = false) (lines cin).
Proof.
  induction cin as [|l Hne Hl|l r Hl IH] using input_ind.
  - rewrite lines_empty. constructor.
  - rewrite (lines_last _ Hne Hl). now repeat constructor.
  - rewrite (lines_line _ _ Hl). now constructor.
Qed.

Lemma unlines_lines (cin : string) :
  unlines (lines cin) =
  if (empty cin || ends_with_newline cin)%bool then cin
  else (cin ++ endl)%string.
Proof.
  induction cin as [|l Hne Hl|l r Hl IH] using input_ind.
  - rewrite lines_empty. reflexivity.
  - rewrite (lines_last _ Hne Hl). simpl.
    destruct l as [|c l]; [congruence|].
    destruct (ends_with_newline (String c l)) eqn:E; [|reflexivity].
    apply ends_with_newline_has in E. congruence.
  - rewrite (lines_line _ _ Hl). simpl. rewrite IH, ends_with_newline_line.
    assert (empty (l ++ String newline r) = false) as ->
        by (destruct l; reflexivity).
    destruct r as [|c r]; [reflexivity|].
    change (empty (String c r)) with false. cbv beta iota. rewrite !orb_false_l.
    destruct (ends_with_newline (String c r)); [reflexivity|].
    now rewrite append_assoc.
Qed.

(** ** Lines the loop can read: facts *)

Lemma stoi_fault (str : string) (f : fault) :
  stoi str = Fail f -> f = invalid_argument \/ f = out_of_range.
Proof.
  unfold stoi. destruct (sign (skip_space str)) as [neg s].
  destruct (starts_with_digit s); [|intros H; injection H as <-; now left].
  destruct (in_rangeb _); [discriminate|].
  intros H; injection H as <-. now right.
Qed.

Lemma loop_body_readable (line : string) (st : locals) :
  readable line = true -> exists st', loop_body line st = Ok st'.
Proof.
  unfold readable, loop_body. destruct (empty line); simpl; [eauto|].
  destruct (stoi line); [simpl; eauto | discriminate].
Qed.

Lemma loop_body_ok_readable (line : string) (st st' : locals) :
  loop_body line st = Ok st' -> readable line = true.
Proof.
  unfold readable, loop_body. destruct (empty line); simpl; [reflexivity|].
  destruct (stoi line); [reflexivity | discriminate].
Qed.

Lemma run_lines_readable (ls : list string) (st : locals) :
  Forall (fun l => readable l = true) ls -> exists st', run_lines ls st = Ok st'.
Proof.
  intros H. revert st. induction H as [|l ls Hl Hls IH]; intros st; simpl.
  - eauto.
  - destruct (loop_body_readable l st Hl) as [st1 ->]. simpl. apply IH.
Qed.

Lemma run_lines_ok_readable (ls : list string) (st st' : locals) :
  run_lines ls st = Ok st' -> Forall (fun l => readable l = true) ls.
Proof.
  revert st. induction ls as [|l ls IH]; intros st H; simpl in H.
  - constructor.
  - destruct (loop_body l st) as [st1|f] eqn:E; simpl in H; [|discriminate].
    constructor; [eapply loop_body_ok_readable; eassumption | eauto].
Qed.

Lemma run_lines_first_bad (pre post : list string) (bad : string) (f : fault)
      (st : locals) :
  Forall (fun l => readable l = true) pre ->
  empty bad = false -> stoi bad = Fail f ->
  run_lines (pre ++ bad :: post) st = Fail f.
Proof.
  intros Hpre He Hf. rewrite run_lines_app.
  destruct (run_lines_readable pre st Hpre) as [st1 ->]. simpl.
  unfold loop_body. rewrite He, Hf. reflexivity.
Qed.

Lemma finish_ok_iff (st : locals) :
  (exists out, finish st = Ok out) <-> (3 <= List.length (elfs st))%nat.
Proof.
  split.
  - intros [out H].
    destruct (Nat.lt_ge_cases (List.length (elfs st)) 3) as [Hlt|Hge];
      [|exact Hge].
    rewrite (finish_short _ Hlt) in H. discriminate.
  - intros Hge.
    destruct (three_largest_exists _ Hge) as (a & b & c & H3).
    destruct (three_largest_sort _ _ _ _ H3) as (a' & b' & c' & tl & Hs & _).
    rewrite (finish_top3 _ _ _ _ _ Hs). eauto.
Qed.

Lemma skip_space_all_space (s : string) :
  all_space s = true -> skip_space s = EmptyString.
Proof.
  induction s as [|c s IH]; simpl; [reflexivity|].
  intros H. apply andb_true_iff in H. destruct H as [-> Hs]. auto.
Qed.

Lemma skip_space_app (ws s : string) :
  all_space ws = true -> skip_space (ws ++ s) = skip_space s.
Proof.
  induction ws as [|c ws IH]; simpl; [reflexivity|].
  intros H. apply andb_true_iff in H. destruct H as [-> Hs]. auto.
Qed.

Lemma skip_space_suffix (s t : string) :
  skip_space s <> EmptyString ->
  skip_space (s ++ t) = (skip_space s ++ t)%string.
Proof.
  induction s as [|c s IH]; simpl; [congruence|].
  destruct (isspace c); [exact IH | reflexivity].
Qed.

Lemma digits_suffix (s t : string) (c : ascii) (acc : Z) :
  digit_val c = None -> digits acc (s ++ String c t) = digits acc s.
Proof.
  intros Hc. revert acc. induction s as [|x s IH]; intros acc; simpl.
  - now rewrite Hc.
  - destruct (digit_val x); [apply IH | reflexivity].
Qed.

(** ** Numerals: facts *)

Lemma digits_stop (rest : string) (acc : Z) :
  starts_with_digit rest = false -> digits acc rest = acc.
Proof.
  destruct rest as [|c rest]; simpl; [reflexivity|].
  destruct (digit_val c); [discriminate | reflexivity].
Qed.

Lemma digits_numeral_acc (d : Decimal.uint) (rest : string) (acc : positive) :
  starts_with_digit rest = false ->
  digits (Zpos acc) (NilEmpty.string_of_uint d ++ rest) =
  Zpos (Pos.of_uint_acc d acc).
Proof.
  intros Hr. revert acc.
  induction d as [|d IH|d IH|d IH|d IH|d IH|d IH|d IH|d IH|d IH|d IH];
    intros acc;
    [ now apply digits_stop | .. ];
    cbn [NilEmpty.string_of_uint append digits Pos.of_uint_acc];
    match goal with
    | |- context [digit_val ?c] =>
        let v := eval vm_compute in (digit_val c) in
        change (digit_val c) with v
    end;
    cbv beta iota; rewrite <- IH; f_equal; lia.
Qed.

Lemma digits_numeral (d : Decimal.uint) (rest : string) :
  starts_with_digit rest = false ->
  digits 0 (NilEmpty.string_of_uint d ++ rest) = Z.of_N (Pos.of_uint d).
Proof.
  intros Hr.
  induction d as [|d IH|d IH|d IH|d IH|d IH|d IH|d IH|d IH|d IH|d IH];
    [ now apply digits_stop | exact IH | .. ];
    cbn [NilEmpty.string_of_uint append digits Pos.of_uint];
    match goal with
    | |- context [digit_val ?c] =>
        let v := eval vm_compute in (digit_val c) in
        change (digit_val c) with v
    end;
    cbv beta iota; simpl Z.add;
    now rewrite digits_numeral_acc.
Qed.

Lemma stoi_numeral (d : Decimal.uint) (rest : string) (neg : bool) :
  d <> Decimal.Nil -> starts_with_digit rest = false ->
  stoi ((if neg then String "-" EmptyString else EmptyString)
          ++ NilEmpty.string_of_uint d ++ rest) =
  let v := Z.of_N (Pos.of_uint d) in
  let v := if neg then - v else v in
  if in_rangeb v then Ok v else Fail out_of_range.
Proof.
  intros Hd Hr. pose proof (digits_numeral d rest Hr) as Hv.
  destruct d; [congruence | ..]; destruct neg; unfold stoi;
    cbn [NilEmpty.string_of_uint append] in *;
    cbn [skip_space sign starts_with_digit];
    repeat match goal with
    | |- context [isspace ?c] =>
        let v := eval vm_compute in (isspace c) in
        change (isspace c) with v
    end; cbv beta iota;
    cbn [skip_space sign starts_with_digit];
    repeat match goal with
    | |- context [digit_val ?c] =>
        let v := eval vm_compute in (digit_val c) in
        change (digit_val c) with v
    end; cbv beta iota;
    rewrite Hv; reflexivity.
Qed.

Lemma stoi_to_string (z : Z) (rest : string) :
  in_range z -> starts_with_digit rest = false ->
  stoi (to_string z ++ rest) = Ok z.
Proof.
  intros Hz Hr. apply in_rangeb_spec in Hz. unfold to_string.
  destruct z as [|p|p]; simpl Z.to_int.
  - change (NilZero.string_of_int (Decimal.Pos Decimal.zero)) with "0"%string.
    pose proof (stoi_numeral (Decimal.D0 Decimal.Nil) rest false) as H.
    simpl in H. apply H; [discriminate | exact Hr].
  - pose proof (DecimalPos.Unsigned.to_uint_nonnil p) as Hn.
    pose proof (stoi_numeral (Pos.to_uint p) rest false Hn Hr) as H.
    rewrite DecimalPos.Unsigned.of_to in H. cbv zeta in H.
    change (Z.of_N (N.pos p)) with (Z.pos p) in H. rewrite Hz in H.
    unfold NilZero.string_of_int, NilZero.string_of_uint.
    destruct (Pos.to_uint p); [congruence | exact H ..].
  - pose proof (DecimalPos.Unsigned.to_uint_nonnil p) as Hn.
    pose proof (stoi_numeral (Pos.to_uint p) rest true Hn Hr) as H.
    rewrite DecimalPos.Unsigned.of_to in H. cbv zeta in H.
    change (- Z.of_N (N.pos p)) with (Z.neg p) in H. rewrite Hz in H.
    unfold NilZero.string_of_int, NilZero.string_of_uint.
    destruct (Pos.to_uint p); [congruence | exact H ..].
Qed.

(** ** The largest sums: facts *)

Lemma sum_append (l1 l2 : list Z) : sum (l1 ++ l2) = sum l1 + sum l2.
Proof. induction l1 as [|x l1 IH]; simpl; lia. Qed.

Lemma firstn_sum_shift (s : list Z) (a : Z) (n : nat) :
  descending (a :: s) -> (n <= List.length s)%nat ->
  sum (firstn n s) <= sum (firstn n (a :: s)).
Proof.
  unfold descending. revert a n.
  induction s as [|b s IH]; intros a n Hd Hn.
  - simpl in Hn. assert (n = 0%nat) as -> by lia. simpl. lia.
  - destruct n as [|m]; [simpl; lia|].
    inversion Hd as [|? ? Hd' Ha]; subst.
    inversion Ha as [|? ? Hba _]; subst.
    simpl in Hn. specialize (IH b m Hd' ltac:(lia)).
    change (firstn (S m) (a :: b :: s)) with (a :: firstn m (b :: s)).
    change (firstn (S m) (b :: s)) with (b :: firstn m s).
    simpl sum. lia.
Qed.

(** In a descending list, no [k] elements add up to more than the first
    [k]. *)
Lemma top_sum_max (s q rest : list Z) :
  descending s -> Permutation s (q ++ rest) ->
  sum q <= sum (firstn (List.length q) s).
Proof.
  unfold descending. intros Hd. revert q rest.
  induction Hd as [|a s Hs IH Ha]; intros q rest Hp.
  - apply Permutation_nil in Hp. apply app_eq_nil in Hp.
    destruct Hp as [-> _]. simpl. lia.
  - destruct (in_dec Z.eq_dec a q) as [Hin|Hnin].
    + apply in_split in Hin. destruct Hin as (q1 & q2 & ->).
      rewrite <- app_assoc in Hp. simpl in Hp.
      apply Permutation_cons_app_inv in Hp. rewrite app_assoc in Hp.
      specialize (IH _ _ Hp).
      rewrite length_app in *. simpl List.length.
      rewrite Nat.add_succ_r. simpl firstn.
      rewrite !sum_append in *. simpl sum. lia.
    + assert (In a rest) as Hin.
      { assert (In a (q ++ rest)) as H
            by (eapply Permutation_in; [exact Hp | now left]).
        apply in_app_or in H. tauto. }
      apply in_split in Hin. destruct Hin as (r1 & r2 & ->).
      rewrite app_assoc in Hp. apply Permutation_cons_app_inv in Hp.
      rewrite <- app_assoc in Hp.
      specialize (IH _ _ Hp).
      apply Permutation_length in Hp. rewrite !length_app in Hp.
      pose proof (firstn_sum_shift s a (List.length q)
                    (SSorted_cons a Hs Ha) ltac:(lia)).
      lia.
Qed.

(** ** Lines in another order, blank inputs, numerals as lines: facts *)

Lemma agree_refl {A : Type} (r : result A) : agree r r.
Proof. destruct r; simpl; auto. Qed.

Lemma agree_trans {A : Type} (r1 r2 r3 : result A) :
  agree r1 r2 -> agree r2 r3 -> agree r1 r3.
Proof. destruct r1, r2, r3; simpl; try tauto. congruence. Qed.

Lemma int_add_swap (acc a b : Z) :
  int_add (int_add acc a) b = int_add (int_add acc b) a.
Proof. unfold int_add. rewrite !wrap_add_l. f_equal. lia. Qed.

Lemma sum_lines_perm (g g' : list string) :
  Permutation g g' ->
  forall acc, agree (sum_lines acc g) (sum_lines acc g').
Proof.
  induction 1 as [| x g g' Hp IH | x y g | g1 g2 g3 H1 IH1 H2 IH2];
    intros acc; simpl.
  - reflexivity.
  - destruct (stoi x); simpl; [apply IH | exact I].
  - destruct (stoi x), (stoi y); simpl; try exact I.
    rewrite int_add_swap. apply agree_refl.
  - eapply agree_trans; [apply IH1 | apply IH2].
Qed.

Lemma sums_of_lines_perm (gs gs' : list (list string)) :
  Forall2 (@Permutation string) gs gs' -> agree (sums_of gs) (sums_of gs').
Proof.
  induction 1 as [|g g' gs gs' Hg Hgs IH]; simpl; [reflexivity|].
  pose proof (sum_lines_perm _ _ Hg 0) as H0.
  destruct (sum_lines 0 g), (sum_lines 0 g'); simpl in *; try tauto.
  subst. destruct (sums_of gs), (sums_of gs'); simpl in *; try tauto.
  now subst.
Qed.

Lemma not_empty_perm (gs gs' : list (list string)) :
  Forall2 (@Permutation string) gs gs' ->
  Forall (Forall (fun line => empty line = false)) gs ->
  Forall (Forall (fun line => empty line = false)) gs'.
Proof.
  induction 1 as [|g g' gs gs' Hg Hgs IH]; intros H; [constructor|].
  inversion H; subst. constructor; [|auto].
  eapply Permutation_Forall; eassumption.
Qed.

Lemma while_getline_blank_run (k : nat) (rest : string) (e : list Z) :
  while_getline (blank_run k rest) {| count := 0; elfs := e |} =
  while_getline rest {| count := 0; elfs := e ++ repeat 0 k |}.
Proof.
  revert e. induction k as [|k IH]; intros e; simpl.
  - now rewrite app_nil_r.
  - rewrite while_getline_blank. simpl. rewrite IH, <- app_assoc. reflexivity.
Qed.

Lemma descending_repeat (x : Z) (k : nat) : descending (repeat x k).
Proof.
  unfold descending. induction k as [|k IH]; simpl; constructor; [exact IH|].
  apply Forall_forall. intros y Hy. apply repeat_spec in Hy. lia.
Qed.

Lemma has_newline_numeral (d : Decimal.uint) :
  has_newline (NilEmpty.string_of_uint d) = false.
Proof. induction d; simpl; auto. Qed.

Lemma has_newline_to_string (z : Z) : has_newline (to_string z) = false.
Proof.
  unfold to_string, NilZero.string_of_int, NilZero.string_of_uint.
  destruct (Z.to_int z) as [d|d]; destruct d; simpl;
    auto using has_newline_numeral.
Qed.

Lemma to_string_not_empty (z : Z) : empty (to_string z) = false.
Proof.
  unfold to_string, NilZero.string_of_int, NilZero.string_of_uint.
  destruct (Z.to_int z) as [d|d]; destruct d; reflexivity.
Qed.

Lemma starts_with_digit_empty : starts_with_digit EmptyString = false.
Proof. reflexivity. Qed.

Lemma parses_to_string (z : Z) : in_range z -> parses (to_string z) z.
Proof.
  intros Hz. unfold parses.
  rewrite <- (append_empty_r (to_string z)).
  now apply stoi_to_string.
Qed.

Lemma sign_suffix (s x : string) :
  s <> EmptyString ->
  sign (s ++ x) = (fst (sign s), (snd (sign s) ++ x)%string).
Proof.
  destruct s as [|c s]; [congruence|]. intros _.
  destruct c as [[] [] [] [] [] [] [] []]; reflexivity.
Qed.

Lemma starts_with_digit_suffix (s x : string) :
  starts_with_digit s = true -> starts_with_digit (s ++ x) = true.
Proof. destruct s; [discriminate | exact (fun H => H)]. Qed.

Lemma stoi_suffix (s t : string) (c : ascii) (v : Z) :
  stoi s = Ok v -> digit_val c = None -> stoi (s ++ String c t) = Ok v.
Proof.
  unfold stoi. intros H Hc.
  destruct (skip_space s) as [|c0 s0] eqn:Es; [discriminate|].
  rewrite skip_space_suffix by (rewrite Es; discriminate).
  rewrite Es, sign_suffix by discriminate.
  destruct (sign (String c0 s0)) as [neg s1]. simpl fst. simpl snd.
  destruct (starts_with_digit s1) eqn:Ed; [|discriminate].
  rewrite (starts_with_digit_suffix _ _ Ed), digits_suffix by exact Hc.
  exact H.
Qed.

Lemma lines_unlines (ls : list string) :
  Forall (fun l => has_newline l = false) ls -> lines (unlines ls) = ls.
Proof.
  intros H. rewrite <- (append_empty_r (unlines ls)).
  rewrite (lines_unlines_app _ _ H), lines_empty. apply app_nil_r.
Qed.

Lemma lines_app_complete (a b : string) :
  (empty a || ends_with_newline a)%bool = true ->
  lines (a ++ b) = lines a ++ lines b.
Proof.
  intros H. pose proof (unlines_lines a) as E. rewrite H in E.
  rewrite <- E at 1. apply lines_unlines_app, lines_no_newline.
Qed.

Lemma flatten_numerals_no_newline (vss : list (list Z)) :
  Forall (fun l => has_newline l = false)
         (flatten (map (map to_string) vss) []).
Proof.
  unfold flatten. rewrite app_nil_r.
  induction vss as [|vs vss IH]; simpl; [constructor|].
  rewrite <- app_assoc. apply Forall_app. split; [|].
  - apply Forall_forall. intros l Hl. apply in_map_iff in Hl.
    destruct Hl as (z & <- & _). apply has_newline_to_string.
  - constructor; [reflexivity | exact IH].
Qed.

Lemma numerals_parse (vss : list (list Z)) :
  Forall (Forall in_range) vss ->
  Forall2 (Forall2 parses) (map (map to_string) vss) vss.
Proof.
  induction 1 as [|vs vss Hvs Hvss IH]; simpl; constructor; [|exact IH].
  induction Hvs as [|z vs Hz Hvs IHvs]; simpl; constructor; [|exact IHvs].
  now apply parses_to_string.
Qed.

(** ** Further properties of the program *)

(** X1. If every line of the input is empty or read by [stoi], and at least
    three lines are empty, then the loop ends normally with one block sum
    for each empty line, the three reads of the sorted vector are in bounds,
    and the program prints. *)
Theorem prints_when_readable (cin : string) :
  Forall (fun line => readable line = true) (lines cin) ->
  (3 <= blank_lines (lines cin))%nat ->
  exists st out,
    while_getline cin init = Ok st /\
    List.length (elfs st) = blank_lines (lines cin) /\
    (forall i, (i < 3)%nat ->
               exists x, index (sort greater (elfs st)) i = Ok x) /\
    main cin = Ok out.
Proof.
  intros Hr Hn.
  destruct (run_lines_readable _ init Hr) as [st E].
  pose proof (run_lines_length _ _ _ E) as Hlen. simpl in Hlen.
  assert (3 <= List.length (elfs st))%nat as Hge by lia.
  destruct (three_largest_exists _ Hge) as (a & b & c & H3).
  destruct (three_largest_sort _ _ _ _ H3) as (a' & b' & c' & tl & Hs & _).
  exists st, (to_string (wrap (a' + b' + c')) ++ endl)%string.
  split; [now rewrite while_getline_run_lines|]. split; [exact Hlen|]. split.
  - intros i Hi. rewrite Hs.
    destruct i as [|[|[|i]]]; [eexists; reflexivity .. | lia].
  - rewrite main_lines, E. simpl. eapply finish_top3. exact Hs.
Qed.

Lemma prints_when_readable_witness :
  exists st out,
    while_getline example_terminated init = Ok st /\
    List.length (elfs st) = blank_lines (lines example_terminated) /\
    (forall i, (i < 3)%nat ->
               exists x, index (sort greater (elfs st)) i = Ok x) /\
    main example_terminated = Ok out.
Proof.
  refine (prints_when_readable example_terminated _ _).
  - change (lines example_terminated)
      with ["3"; "4"; ""; "5"; ""; "10"; "20"; "30"; ""]%string.
    repeat constructor.
  - change (3 <= 3)%nat. apply le_n.
Defined.

(** X2. The first line that is not empty and that [stoi] rejects ends the
    run with the exception of [stoi] ([invalid_argument] or [out_of_range]),
    whatever follows it; nothing is printed. *)
Theorem first_unreadable_line_throws (cin : string) (pre post : list string)
        (bad : string) (f : fault) :
  lines cin = pre ++ bad :: post ->
  Forall (fun line => readable line = true) pre ->
  empty bad = false ->
  stoi bad = Fail f ->
  main cin = Fail f /\ printed (main cin) = None /\
  (f = invalid_argument \/ f = out_of_range).
Proof.
  intros Hl Hpre He Hf.
  assert (main cin = Fail f) as Hm.
  { rewrite main_lines, Hl, (run_lines_first_bad _ _ _ _ _ Hpre He Hf).
    reflexivity. }
  rewrite Hm. repeat split. eapply stoi_fault; eassumption.
Qed.

Lemma first_unreadable_line_throws_witness :
  main unreadable_input = Fail out_of_range /\
  printed (main unreadable_input) = None /\
  (out_of_range = invalid_argument \/ out_of_range = out_of_range).
Proof.
  refine (first_unreadable_line_throws unreadable_input ["1"%string] ["x"; ""]%string "99999999999" out_of_range
            eq_refl _ eq_refl eq_refl).
  repeat constructor.
Defined.

(** X3. A line of white space only that is not empty (the carriage return
    that a blank line keeps in a text with two-character line ends, say) is
    no separator: [stoi] throws [invalid_argument] on it and nothing is
    printed. *)
Theorem white_space_line_throws (cin : string) (pre post : list string)
        (line : string) :
  lines cin = pre ++ line :: post ->
  Forall (fun l => readable l = true) pre ->
  empty line = false ->
  all_space line = true ->
  stoi line = Fail invalid_argument /\ main cin = Fail invalid_argument.
Proof.
  intros Hl Hpre He Hs.
  assert (stoi line = Fail invalid_argument) as Hf.
  { unfold stoi. now rewrite (skip_space_all_space _ Hs). }
  split; [exact Hf|].
  rewrite main_lines, Hl, (run_lines_first_bad _ _ _ _ _ Hpre He Hf).
  reflexivity.
Qed.

Lemma white_space_line_throws_witness :
  stoi (String cr EmptyString) = Fail invalid_argument /\
  main crlf_input = Fail invalid_argument.
Proof.
  refine (white_space_line_throws crlf_input
            [String "1" (String cr EmptyString)]
            [String "2" (String cr EmptyString)]
            (String cr EmptyString) eq_refl _ eq_refl eq_refl).
  repeat constructor.
Defined.

(** X4. [stoi] ignores white space before the number and whatever follows
    it from the first character that is no digit (a carriage return at the
    end of the line, say). *)
Theorem stoi_ignores_padding (ws s t : string) (c : ascii) (v : Z) :
  all_space ws = true ->
  stoi s = Ok v ->
  digit_val c = None ->
  stoi (ws ++ s ++ String c t) = Ok v.
Proof.
  intros Hws Hs Hc.
  pose proof (stoi_suffix s t c v Hs Hc) as H.
  unfold stoi in *. now rewrite (skip_space_app _ _ Hws).
Qed.

Lemma stoi_ignores_padding_witness :
  stoi ("  " ++ "-12" ++ String cr "7")%string = Ok (-12).
Proof.
  exact (stoi_ignores_padding "  " "-12" "7" cr (-12) eq_refl eq_refl eq_refl).
Defined.

(** X5. Round trip: [stoi] reads the numeral that [operator<<] writes for
    an [int] back as that [int], also when something that does not start
    with a digit follows the numeral; the numeral holds no newline. *)
Theorem stoi_reads_numeral_back (z : Z) (rest : string) :
  in_range z ->
  starts_with_digit rest = false ->
  stoi (to_string z ++ rest) = Ok z /\
  stoi (to_string z) = Ok z /\
  has_newline (to_string z) = false.
Proof.
  intros Hz Hr. split; [now apply stoi_to_string|].
  split; [now apply parses_to_string | apply has_newline_to_string].
Qed.

Lemma stoi_reads_numeral_back_witness :
  stoi (to_string (-2147483648) ++ endl) = Ok (-2147483648) /\
  stoi (to_string (-2147483648)) = Ok (-2147483648) /\
  has_newline (to_string (-2147483648)) = false.
Proof.
  refine (stoi_reads_numeral_back (-2147483648) endl _ eq_refl).
  unfold in_range, INT_MIN, INT_MAX. lia.
Defined.

(** X6. End to end on written integers.  For groups of [int]s written in
    decimal, one to a line, each group followed by a blank line, the loop
    records the sum of each group; with at least three groups the program
    prints the sum of three largest group sums, and with fewer the read at
    the index that is the number of groups is out of bounds. *)
Theorem written_groups_are_summed (vss : list (list Z)) :
  Forall (Forall in_range) vss ->
  let cin := unlines (flatten (map (map to_string) vss) []) in
  while_getline cin init = Ok {| count := 0; elfs := map block_sum vss |} /\
  ((3 <= List.length vss)%nat ->
   forall a b c,
     three_largest (map block_sum vss) a b c ->
     main cin = Ok (to_string (wrap (a + b + c)) ++ endl)%string) /\
  ((List.length vss < 3)%nat ->
   main cin = Fail (out_of_bounds (List.length vss))).
Proof.
  intros Hr cin.
  assert (lines cin = flatten (map (map to_string) vss) []) as Hl
      by apply lines_unlines, flatten_numerals_no_newline.
  pose proof (numerals_parse vss Hr) as Hp.
  assert (while_getline cin init =
          Ok {| count := 0; elfs := map block_sum vss |}) as Hw.
  { rewrite (while_getline_flatten cin _ [] Hl); auto.
    - now rewrite (sums_of_parses _ _ Hp).
    - eapply parses_groups_not_empty; eassumption. }
  split; [exact Hw|]. unfold main. rewrite Hw. simpl. split.
  - intros _ a b c H3.
    destruct (three_largest_sort _ _ _ _ H3) as (a' & b' & c' & tl & Hs & <-).
    eapply finish_top3. exact Hs.
  - intros Hn. rewrite finish_short; simpl; rewrite length_map; auto.
Qed.

Lemma written_groups_are_summed_witness :
  let cin := unlines (flatten (map (map to_string) [[3; 4]; [-5]; [10; 20; 30]]) []) in
  while_getline cin init =
    Ok {| count := 0; elfs := map block_sum [[3; 4]; [-5]; [10; 20; 30]] |} /\
  ((3 <= 3)%nat ->
   forall a b c,
     three_largest (map block_sum [[3; 4]; [-5]; [10; 20; 30]]) a b c ->
     main cin = Ok (to_string (wrap (a + b + c)) ++ endl)%string) /\
  ((3 < 3)%nat -> main cin = Fail (out_of_bounds 3)).
Proof.
  refine (written_groups_are_summed [[3; 4]; [-5]; [10; 20; 30]] _).
  repeat constructor; unfold in_range, INT_MIN, INT_MAX; lia.
Defined.

(** X7. Whenever the program prints, the output is one line: the numeral of
    an [int], then a newline; [stoi] reads it back as that [int]. *)
Theorem output_is_one_numeral_line (cin out : string) :
  main cin = Ok out ->
  exists z,
    in_range z /\
    out = (to_string z ++ endl)%string /\
    lines out = [to_string z] /\
    stoi out = Ok z.
Proof.
  rewrite main_lines. intros H.
  destruct (run_lines (lines cin) init) as [st|f]; [|discriminate].
  simpl in H.
  assert (3 <= List.length (elfs st))%nat as Hn
      by (apply finish_ok_iff; eauto).
  destruct (three_largest_exists _ Hn) as (a & b & c & H3).
  destruct (three_largest_sort _ _ _ _ H3) as (a' & b' & c' & tl & Hs & _).
  rewrite (finish_top3 _ _ _ _ _ Hs) in H. injection H as <-.
  exists (wrap (a' + b' + c')). split; [apply wrap_range|].
  split; [reflexivity|]. split.
  - unfold endl. rewrite lines_line by apply has_newline_to_string.
    now rewrite lines_empty.
  - apply stoi_to_string; [apply wrap_range | reflexivity].
Qed.

Lemma output_is_one_numeral_line_witness :
  exists z,
    in_range z /\
    ("72
" = to_string z ++ endl)%string /\
    lines "72
" = [to_string z] /\
    stoi "72
" = Ok z.
Proof.
  exact (output_is_one_numeral_line example_terminated "72
" eq_refl).
Defined.

(** X8. With at least three recorded block sums, the number printed is [m]
    reduced to an [int], where [m] is the largest sum of three recorded
    block sums taken at three places: some three add up to [m], and no
    three add up to more. *)
Theorem printed_sum_is_largest (cin : string) (st : locals) :
  while_getline cin init = Ok st ->
  (3 <= List.length (elfs st))%nat ->
  exists m,
    main cin = Ok (to_string (wrap m) ++ endl)%string /\
    (exists x y z rest,
        Permutation (elfs st) (x :: y :: z :: rest) /\ x + y + z = m) /\
    (forall x y z rest,
        Permutation (elfs st) (x :: y :: z :: rest) -> x + y + z <= m).
Proof.
  intros Hw Hn.
  destruct (three_largest_exists _ Hn) as (a & b & c & H3).
  destruct (three_largest_sort _ _ _ _ H3) as (a' & b' & c' & tl & Hs & _).
  exists (a' + b' + c'). split; [|split].
  - unfold main. rewrite Hw. simpl. eapply finish_top3. exact Hs.
  - exists a', b', c', tl. split; [|reflexivity].
    rewrite <- Hs. symmetry. apply sort_perm.
  - intros x y z rest Hp.
    pose proof (top_sum_max (sort greater (elfs st)) [x; y; z] rest
                  (sort_descending _)) as H.
    rewrite Hs in H. simpl in H.
    assert (Permutation (a' :: b' :: c' :: tl) (x :: y :: z :: rest)) as Hp'.
    { rewrite <- Hs, sort_perm. exact Hp. }
    specialize (H Hp'). lia.
Qed.

Lemma printed_sum_is_largest_witness :
  exists m,
    main example_terminated = Ok (to_string (wrap m) ++ endl)%string /\
    (exists x y z rest,
        Permutation [7; 5; 60] (x :: y :: z :: rest) /\ x + y + z = m) /\
    (forall x y z rest,
        Permutation [7; 5; 60] (x :: y :: z :: rest) -> x + y + z <= m).
Proof.
  refine (printed_sum_is_largest example_terminated
            {| count := 0; elfs := [7; 5; 60] |} eq_refl _).
  simpl. lia.
Defined.

(** X9. A newline after the last line is optional: an input that does not
    end with a newline gives the same lines, the same state after the loop
    and the same result as that input followed by a newline. *)
Theorem final_newline_optional (cin : string) :
  cin <> EmptyString ->
  ends_with_newline cin = false ->
  lines (cin ++ endl) = lines cin /\
  while_getline (cin ++ endl) init = while_getline cin init /\
  main (cin ++ endl) = main cin.
Proof.
  intros Hne He. pose proof (lines_final_newline cin Hne He) as Hl.
  split; [exact Hl|].
  rewrite !main_lines, !while_getline_run_lines, Hl. split; reflexivity.
Qed.

Lemma final_newline_optional_witness :
  lines (no_final_newline ++ endl) = lines no_final_newline /\
  while_getline (no_final_newline ++ endl) init = while_getline no_final_newline init /\
  main (no_final_newline ++ endl) = main no_final_newline.
Proof.
  refine (final_newline_optional no_final_newline _ eq_refl).
  discriminate.
Defined.

(** X10. Reading two texts one after the other: when the first is empty or
    ends with a newline, the lines of the concatenation are the lines of the
    first and then those of the second, and the loop on the concatenation is
    the loop on the second text from the state the first one leaves. *)
Theorem input_concatenation (a b : string) (st : locals) :
  (empty a || ends_with_newline a)%bool = true ->
  lines (a ++ b) = lines a ++ lines b /\
  while_getline (a ++ b) st =
  st' <- while_getline a st ;; while_getline b st'.
Proof.
  intros H. pose proof (lines_app_complete a b H) as Hl.
  split; [exact Hl|].
  rewrite !while_getline_run_lines, Hl, run_lines_app.
  destruct (run_lines (lines a) st); simpl; [|reflexivity].
  now rewrite while_getline_run_lines.
Qed.

Lemma input_concatenation_witness :
  lines (example_input ++ endl) = lines example_input ++ lines endl /\
  while_getline (example_input ++ endl) init =
  st' <- while_getline example_input init ;; while_getline endl st'.
Proof.
  exact (input_concatenation example_input endl init eq_refl).
Defined.

(** X11. The lines of a text written line by line, each with its newline,
    are the lines written (none of them holding a newline). *)
Theorem lines_of_written_lines (ls : list string) (st : locals) :
  Forall (fun l => has_newline l = false) ls ->
  lines (unlines ls) = ls /\
  while_getline (unlines ls) st = run_lines ls st.
Proof.
  intros H. pose proof (lines_unlines ls H) as Hl.
  split; [exact Hl|]. now rewrite while_getline_run_lines, Hl.
Qed.

Lemma lines_of_written_lines_witness :
  lines (unlines ["3"; ""; ""; "x y"]%string) = ["3"; ""; ""; "x y"]%string /\
  while_getline (unlines ["3"; ""; ""; "x y"]%string) init =
  run_lines ["3"; ""; ""; "x y"]%string init.
Proof.
  refine (lines_of_written_lines ["3"; ""; ""; "x y"]%string init _).
  repeat constructor.
Defined.

(** X12. [getline] loses no character: no line read holds a newline, and
    writing the lines read back, each with a newline, gives the input, with
    one more newline at the end when the input is not empty and does not end
    with one. *)
Theorem written_lines_of_input (cin : string) :
  Forall (fun l => has_newline l = false) (lines cin) /\
  unlines (lines cin) =
  (if (empty cin || ends_with_newline cin)%bool then cin
   else (cin ++ endl)%string) /\
  lines (unlines (lines cin)) = lines cin.
Proof.
  split; [apply lines_no_newline|]. split; [apply unlines_lines|].
  apply lines_unlines, lines_no_newline.
Qed.

(** X13. Within the groups that a blank line terminates, the order of the
    lines does not matter: permuting the lines inside such groups leaves the
    printed result unchanged. *)
Theorem lines_in_group_order (cin cin' : string)
        (gs gs' : list (list string)) (t : list string) :
  lines cin = flatten gs t ->
  lines cin' = flatten gs' t ->
  Forall (Forall (fun line => empty line = false)) gs ->
  Forall2 (@Permutation string) gs gs' ->
  printed (main cin) = printed (main cin').
Proof.
  intros Hl Hl' Hgs Hp.
  pose proof (not_empty_perm _ _ Hp Hgs) as Hgs'.
  rewrite !main_lines, Hl, Hl', !run_lines_flatten by auto.
  pose proof (sums_of_lines_perm _ _ Hp) as Hs. simpl.
  destruct (sums_of gs) as [cs|f], (sums_of gs') as [cs'|f'];
    simpl in *; try tauto.
  now subst.
Qed.

Lemma lines_in_group_order_witness :
  printed (main example_terminated) =
  printed (main example_lines_swapped).
Proof.
  refine (lines_in_group_order example_terminated example_lines_swapped
            [["3"; "4"]; ["5"]; ["10"; "20"; "30"]]%string
            [["4"; "3"]; ["5"]; ["30"; "10"; "20"]]%string
            [] eq_refl eq_refl _ _).
  - repeat constructor.
  - constructor; [apply perm_swap|].
    constructor; [apply Permutation_refl|].
    constructor; [|constructor].
    apply Permutation_sym.
    apply (Permutation_cons_app ["10"; "20"] [] "30")%string.
    apply Permutation_refl.
Defined.

(** X14. An input of blank lines only (the empty input for [k = 0]): the
    loop records [k] zeros; with fewer than three the read at index [k] is
    out of bounds, otherwise the program prints 0. *)
Theorem blank_only_input (k : nat) :
  while_getline (blank_run k EmptyString) init =
    Ok {| count := 0; elfs := repeat 0 k |} /\
  main (blank_run k EmptyString) =
    if (k <? 3)%nat then Fail (out_of_bounds k)
    else Ok (to_string 0 ++ endl)%string.
Proof.
  assert (while_getline (blank_run k EmptyString) init =
          Ok {| count := 0; elfs := repeat 0 k |}) as Hw.
  { unfold init. rewrite while_getline_blank_run, while_getline_eq.
    reflexivity. }
  split; [exact Hw|]. unfold main. rewrite Hw. simpl.
  destruct (Nat.ltb_spec k 3) as [Hlt|Hge].
  - rewrite finish_short; simpl; rewrite repeat_length; auto.
  - assert (sort greater (repeat 0 k) = repeat 0 k) as Hs
        by (apply sort_unique; [reflexivity | apply descending_repeat]).
    destruct k as [|[|[|k]]]; try lia.
    simpl in Hs. apply (finish_top3 _ 0 0 0 (repeat 0 k)). exact Hs.
Qed.

(** X15. [sort] with [greater] does what [std::sort] promises: the result
    holds the same elements, is in descending order, and is the only list
    with these two properties. *)
Theorem sort_greater_sorts (l : list Z) :
  Permutation (sort greater l) l /\
  descending (sort greater l) /\
  List.length (sort greater l) = List.length l /\
  forall l', Permutation l l' -> descending l' -> l' = sort greater l.
Proof.
  split; [apply sort_perm|]. split; [apply sort_descending|].
  split; [apply sort_length|].
  intros l' Hp Hd. symmetry. now apply sort_unique.
Qed.
